(** * Playlist comparison service: a shallow embedding of [app.py] and
      [yandex_service.py], with the properties of the comparison pipeline.

    Python values are embedded as follows.
    - A [str] is a list of Unicode code points, as Python strings are; the
      literals of the source are written as UTF-8 text and decoded by [u].
    - Exceptions are values of type [exn] returned on the left of a sum.
    - Duck-typed objects are attribute lists ([VObj]); [hasattr] and
      [getattr] are lookups in them.
    - Remote calls, the process environment, [time.sleep] and the two
      [lru_cache]s are threaded through an explicit state ([State]), the
      answers of the remote side being oracles over the history of calls.
    - The delay of the retry decorator is a Python number ([number]): an
      [int], or a [float] with the arithmetic of IEEE 754 binary64. *)

From Stdlib Require Import List ZArith NArith QArith Bool String Ascii Lia.
From Stdlib Require Import Permutation Sorted.
From Stdlib Require DecimalString SpecFloat.
Import ListNotations.

Local Open Scope N_scope.
Local Open Scope list_scope.

(** ** Strings *)

Definition char := N.
Definition str := list char.

Definition str_eqb (a b : str) : bool :=
  if list_eq_dec N.eq_dec a b then true else false.

(** UTF-8 decoding, used to read the literals of the source files. *)
Fixpoint utf8_decode (bs : list N) : str :=
  match bs with
  | [] => []
  | b0 :: t =>
    if b0 <? 128 then b0 :: utf8_decode t
    else if b0 <? 224 then
      match t with
      | b1 :: t1 => ((b0 - 192) * 64 + (b1 - 128)) :: utf8_decode t1
      | _ => []
      end
    else if b0 <? 240 then
      match t with
      | b1 :: b2 :: t2 =>
        ((b0 - 224) * 4096 + (b1 - 128) * 64 + (b2 - 128)) :: utf8_decode t2
      | _ => []
      end
    else
      match t with
      | b1 :: b2 :: b3 :: t3 =>
        ((b0 - 240) * 262144 + (b1 - 128) * 4096 + (b2 - 128) * 64 + (b3 - 128))
          :: utf8_decode t3
      | _ => []
      end
  end.

Definition u (s : string) : str :=
  utf8_decode (map N_of_ascii (list_ascii_of_string s)).

(** Python compares strings lexicographically by code point. *)
Fixpoint str_ltb (a b : str) : bool :=
  match a, b with
  | _, [] => false
  | [], _ :: _ => true
  | x :: a', y :: b' => (x <? y) || ((x =? y) && str_ltb a' b')
  end.

Definition str_le (a b : str) : Prop := str_ltb b a = false.

Definition SLASH : char := 47.
Definition QUESTION : char := 63.

(** ** Exceptions

    An [exn] stands for an instance of [Exception], with the text [str(e)].
    What is raised outside that class (KeyboardInterrupt, SystemExit) ends
    the process and is not modelled. *)

Inductive exn_class :=
| ValueError | TypeError | AttributeError | IndexError | KeyError
| OverflowError | OtherError.

Record exn := Exn { exn_cls : exn_class; exn_msg : str }.

Definition result (A : Type) : Type := (exn + A)%type.

Definition is_ValueError (e : exn) : bool :=
  match exn_cls e with ValueError => true | _ => false end.

(** ** Python values

    [VDict] is a dictionary with string keys (a decoded JSON object, or the
    dictionaries the program builds), [VObj] an object by its attributes,
    [VMethod] a bound method taking no argument, with the outcome of
    calling it ([fetch_track], [fetch_tracks]), and [VOpaque] any other
    value, of which the program can only see that it is truthy. *)

#[local] Set Warnings "-register-all".

Inductive pyval :=
| VNone
| VBool (b : bool)
| VInt (z : Z)
| VFloat (q : Q)
| VStr (s : str)
| VList (l : list pyval)
| VDict (d : list (str * pyval))
| VObj (attrs : list (string * pyval))
| VMethod (outcome : exn + pyval)
| VOpaque.

(** ** Numbers

    The [delay] of the retry decorator: an [int], or a [float], which is a
    binary64 value ([53] bits of precision, exponents up to [1024]) with
    products rounded to nearest, ties to even. *)

Inductive number :=
| Int (z : Z)
| Float (f : SpecFloat.spec_float).

(** The float [0.5], which is [2^52 * 2^-53]. *)
Definition HALF : SpecFloat.spec_float :=
  SpecFloat.S754_finite false 4503599627370496 (-53).

(** [float(z)], as the product of a float and an int converts the int. *)
Definition float_of_int (z : Z) : result SpecFloat.spec_float :=
  match SpecFloat.binary_normalize 53 1024 z 0 false with
  | SpecFloat.S754_infinity _ =>
    inl (Exn OverflowError (u "int too large to convert to float"))
  | f => inr f
  end.

(** [x * k] for an int [k]. *)
Definition number_mul (x : number) (k : Z) : result number :=
  match x with
  | Int z => inr (Int (z * k))
  | Float f =>
    match float_of_int k with
    | inr g => inr (Float (SpecFloat.SFmul 53 1024 f g))
    | inl e => inl e
    end
  end.

(** The value of a number, a count of seconds when it is a delay; an
    infinity and a NaN have none. *)
Definition seconds (x : number) : option Q :=
  match x with
  | Int z => Some (inject_Z z)
  | Float (SpecFloat.S754_zero _) => Some 0%Q
  | Float (SpecFloat.S754_finite s m e) =>
    let n := if s then Z.neg m else Z.pos m in
    Some (Qred (match e with
                | Z0 => inject_Z n
                | Z.pos p => inject_Z (n * Z.pow_pos 2 p)
                | Z.neg p => Qmake n (Pos.pow 2 p)
                end))
  | Float _ => None
  end.

(** The parts of the Python runtime that are tables or not determined by
    the program text: Unicode character classes and case mapping, the text
    of [str(x)] for values that print by identity, the order in which the
    set [set(k1) & set(k2)] is iterated (hash order: some duplicate-free
    enumeration of the common elements), and two library functions.

    [time_sleep x] is [time.sleep(x)]: the number of seconds slept, or the
    exception raised.  A length from zero to one day is slept; a negative
    length down to minus one day is refused with a [ValueError]; beyond
    that the outcome is that of the platform (an [OverflowError], an
    [OSError], or a sleep).

    [sort_other] is [list.sort] on a list of two or more entries whose
    keys are not all strings: how such keys compare with [<] is up to their
    classes, and the comparison may raise.  When it returns, the list has
    been rearranged. *)
Class Platform := {
  isdecimal : char -> bool;
  isspace : char -> bool;
  lower : str -> str;
  lower_ascii : forall s,
    forallb (fun c => c <? 128) s = true ->
    lower s = map (fun c => if (65 <=? c) && (c <=? 90) then c + 32 else c) s;
  repr_other : pyval -> str;
  set_inter_iter : list str -> list str -> list str;
  set_inter_iter_NoDup : forall k1 k2, NoDup (set_inter_iter k1 k2);
  set_inter_iter_In : forall k1 k2 x,
    In x (set_inter_iter k1 k2) <-> In x k1 /\ In x k2;
  time_sleep : number -> result Q;
  time_sleep_accepts : forall x q,
    seconds x = Some q -> (0 <= q)%Q -> (q <= 86400)%Q -> time_sleep x = inr q;
  time_sleep_negative : forall x q,
    seconds x = Some q -> (-86400 <= q)%Q -> (q < 0)%Q ->
    time_sleep x = inl (Exn ValueError (u "sleep length must be non-negative"));
  sort_other : forall T : Type, list (pyval * T) -> result (list (pyval * T));
  sort_other_perm : forall (T : Type) (l l' : list (pyval * T)),
    sort_other T l = inr l' -> Permutation l l';
}.

(** ** Regular expressions of the shape used by the parser

    A pattern is a sequence of literals and capturing groups [(C+)], [C] a
    character class.  Matching is by backtracking, the greedy quantifier
    trying the longest run first, as in Python's [re]. *)

Inductive cclass :=
| Except (cs : str)        (* [^...] *)
| Digit.                   (* \d *)

Inductive re_item :=
| Lit (s : str)
| Group1p (c : cclass).    (* (C+) *)

Definition regex := list re_item.

Section Regex.
Context `{Platform}.

Definition class_mem (c : cclass) (ch : char) : bool :=
  match c with
  | Except cs => negb (existsb (N.eqb ch) cs)
  | Digit => isdecimal ch
  end.

Fixpoint match_lit (p s : str) : option str :=
  match p, s with
  | [], _ => Some s
  | _ :: _, [] => None
  | a :: p', b :: s' => if a =? b then match_lit p' s' else None
  end.

(** [greedy P k acc s]: [acc] already consumed by the quantifier, extend it
    as far as possible into [s], then fall back to shorter runs. *)
Fixpoint greedy {R} (P : char -> bool) (k : str -> str -> option R)
         (acc s : str) : option R :=
  match s with
  | c :: t =>
    if P c then
      match greedy P k (acc ++ [c]) t with
      | Some r => Some r
      | None => k acc s
      end
    else k acc s
  | [] => k acc s
  end.

Fixpoint match_here (r : regex) (s : str) (groups : list str)
  : option (list str) :=
  match r with
  | [] => Some (rev groups)
  | Lit p :: r' =>
    match match_lit p s with
    | Some rest => match_here r' rest groups
    | None => None
    end
  | Group1p c :: r' =>
    match s with
    | ch :: t =>
      if class_mem c ch
      then greedy (class_mem c)
                  (fun cap rest => match_here r' rest (cap :: groups)) [ch] t
      else None
    | [] => None
    end
  end.

(** [re.search]: the match at the leftmost position where one exists. *)
Fixpoint re_search (r : regex) (s : str) : option (list str) :=
  match match_here r s [] with
  | Some g => Some g
  | None => match s with [] => None | _ :: t => re_search r t end
  end.

End Regex.

(** ** app.py: parse_playlist_url_cached (the function under the cache) *)

Inductive playlist_info :=
| Uuid (uuid : str)
| UserKind (user kind : str).

Definition UUID_PREFIX : str := Eval vm_compute in u "music.yandex.ru/playlists/".
Definition USER_PREFIX : str := Eval vm_compute in u "music.yandex.ru/users/".
Definition PLAYLISTS_INFIX : str := Eval vm_compute in u "/playlists/".

Definition UUID_RE : regex := [Lit UUID_PREFIX; Group1p (Except [SLASH; QUESTION])].
Definition USER_RE : regex :=
  [Lit USER_PREFIX; Group1p (Except [SLASH]); Lit PLAYLISTS_INFIX; Group1p Digit].

Definition BAD_LINK_MSG : str :=
  Eval vm_compute in u "Неверный формат ссылки на плейлист".

Section Parse.
Context `{Platform}.

Definition parse_playlist_url (url : str) : result playlist_info :=
  match re_search UUID_RE url with
  | Some [tok] => inr (Uuid tok)
  | _ =>
    match re_search USER_RE url with
    | Some [user; kind] => inr (UserKind user kind)
    | _ => inl (Exn ValueError BAD_LINK_MSG)
    end
  end.

End Parse.


(** ** The Python operations the two modules use *)

(** Truth value ([if v:], [not v]); an object has the default one. *)
Definition truthy (v : pyval) : bool :=
  match v with
  | VNone => false
  | VBool b => b
  | VInt z => negb (Z.eqb z 0)
  | VFloat q => negb (Qeq_bool q 0)
  | VStr s => match s with [] => false | _ => true end
  | VList l => match l with [] => false | _ => true end
  | VDict d => match d with [] => false | _ => true end
  | VObj _ | VMethod _ | VOpaque => true
  end.

Fixpoint assoc {V} (name : string) (l : list (string * V)) : option V :=
  match l with
  | [] => None
  | (n, v) :: t => if String.eqb name n then Some v else assoc name t
  end.

(** [getattr(v, name)], [None] when [hasattr(v, name)] is false.  Of the
    attribute names the program inspects, the built-in types have only
    [str.title], a bound method. *)
Definition py_getattr (v : pyval) (name : string) : option pyval :=
  match v with
  | VObj attrs => assoc name attrs
  | VStr _ => if String.eqb name "title" then Some VOpaque else None
  | _ => None
  end.

Definition py_hasattr (v : pyval) (name : string) : bool :=
  match py_getattr v name with Some _ => true | None => false end.

(** [hasattr(v, name) and v.name]: the attribute when present and truthy. *)
Definition attr_truthy (v : pyval) (name : string) : option pyval :=
  match py_getattr v name with
  | Some a => if truthy a then Some a else None
  | None => None
  end.

Definition str_of_Z (z : Z) : str :=
  u (DecimalString.NilZero.string_of_int (Z.to_int z)).

Definition type_name (v : pyval) : str :=
  match v with
  | VNone => u "NoneType"
  | VBool _ => u "bool"
  | VInt _ => u "int"
  | VFloat _ => u "float"
  | VStr _ => u "str"
  | VList _ => u "list"
  | VDict _ => u "dict"
  | VObj _ => u "object"
  | VMethod _ => u "method"
  | VOpaque => u "builtin_function_or_method"
  end.

(** Exceptions raised by the interpreter itself.  Their message texts are
    those of CPython up to the name of the class of an object. *)
Definition not_iterable (v : pyval) : exn :=
  Exn TypeError (u "'" ++ type_name v ++ u "' object is not iterable").
Definition not_subscriptable (v : pyval) : exn :=
  Exn TypeError (u "'" ++ type_name v ++ u "' object is not subscriptable").
Definition not_callable (v : pyval) : exn :=
  Exn TypeError (u "'" ++ type_name v ++ u "' object is not callable").
Definition no_attribute (v : pyval) (name : string) : exn :=
  Exn AttributeError
      (u "'" ++ type_name v ++ u "' object has no attribute '" ++ u name ++ u "'").

(** Iteration ([for x in v], and the argument of [str.join]). *)
Definition py_iter (v : pyval) : result (list pyval) :=
  match v with
  | VList l => inr l
  | VStr s => inr (map (fun c => VStr [c]) s)
  | VDict d => inr (map (fun kv => VStr (fst kv)) d)
  | _ => inl (not_iterable v)
  end.

(** [v[0]]. *)
Definition py_index0 (v : pyval) : result pyval :=
  match v with
  | VList (x :: _) => inr x
  | VList [] => inl (Exn IndexError (u "list index out of range"))
  | VStr (c :: _) => inr (VStr [c])
  | VStr [] => inl (Exn IndexError (u "string index out of range"))
  | VDict _ => inl (Exn KeyError (u "0"))
  | _ => inl (not_subscriptable v)
  end.

Fixpoint dict_lookup {V} (k : str) (d : list (str * V)) : option V :=
  match d with
  | [] => None
  | (k', v) :: t => if str_eqb k k' then Some v else dict_lookup k t
  end.

(** [v.get(key, default)]. *)
Definition py_dict_get (v : pyval) (key : str) (default : pyval) : result pyval :=
  match v with
  | VDict d => inr (match dict_lookup key d with Some x => x | None => default end)
  | _ => inl (no_attribute v "get")
  end.

(** [v()]. *)
Definition py_call (v : pyval) : result pyval :=
  match v with
  | VMethod outcome => outcome
  | _ => inl (not_callable v)
  end.

(** [sep.join(v)]; [i] is the index of the head of [l] in the sequence. *)
Fixpoint join_strs (sep : str) (i : Z) (l : list pyval) : result str :=
  match l with
  | [] => inr []
  | x :: t =>
    match x with
    | VStr s =>
      match t with
      | [] => inr s
      | _ => match join_strs sep (i + 1) t with
             | inr r => inr (s ++ sep ++ r)
             | inl e => inl e
             end
      end
    | _ => inl (Exn TypeError (u "sequence item " ++ str_of_Z i
                                 ++ u ": expected str instance, "
                                 ++ type_name x ++ u " found"))
    end
  end.

Definition py_join (sep : str) (v : pyval) : result str :=
  match py_iter v with
  | inr l => join_strs sep 0 l
  | inl _ => inl (Exn TypeError (u "can only join an iterable"))
  end.

Section PyStr.
Context `{Platform}.

(** [str(v)], also what an f-string field prints. *)
Definition py_str (v : pyval) : str :=
  match v with
  | VStr s => s
  | VInt z => str_of_Z z
  | VNone => u "None"
  | VBool true => u "True"
  | VBool false => u "False"
  | _ => repr_other v
  end.

(** [s.strip()]. *)
Fixpoint lstrip (s : str) : str :=
  match s with
  | c :: t => if isspace c then lstrip t else s
  | [] => []
  end.

Definition strip (s : str) : str := rev (lstrip (rev (lstrip s))).

End PyStr.

(** ** The exception monad *)

Definition rbind {A B} (m : result A) (k : A -> result B) : result B :=
  match m with
  | inl e => inl e
  | inr a => k a
  end.

Notation "'let?' x ':=' m 'in' k" := (rbind m (fun x => k))
  (at level 10, x pattern, m at level 100, k at level 200).

(** ** yandex_service.py: get_track_id and the body of get_track_info *)

Definition UNKNOWN_TRACK : str := Eval vm_compute in u "Неизвестный трек".
Definition UNKNOWN_ARTIST : str := Eval vm_compute in u "Неизвестный исполнитель".
Definition COMMA_SPACE : str := Eval vm_compute in u ", ".
Definition ALBUM_URL : str := Eval vm_compute in u "https://music.yandex.ru/album/".
Definition TRACK_INFIX : str := Eval vm_compute in u "/track/".
Definition TRACK_URL : str := Eval vm_compute in u "https://music.yandex.ru/track/".

(** The dictionary [{'id': .., 'title': .., 'artists': .., 'url': ..}]. *)
Record info := Info {
  info_id : str;
  info_title : pyval;
  info_artists : str;
  info_url : str;
}.

(** [if s:] for an optional string. *)
Definition nonempty (o : option str) : bool :=
  match o with
  | Some (_ :: _) => true
  | _ => false
  end.

Definition py_eq_str (v : pyval) (s : str) : bool :=
  match v with
  | VStr t => str_eqb t s
  | _ => false
  end.

Definition getattr_default (v : pyval) (name : string) (default : pyval) : pyval :=
  match py_getattr v name with
  | Some a => a
  | None => default
  end.

Section Normalizer.
Context `{Platform}.

Definition get_track_id (track : pyval) : option str :=
  match attr_truthy track "id" with
  | Some v => Some (py_str v)
  | None =>
    match attr_truthy track "track_id" with
    | Some v => Some (py_str v)
    | None => None
    end
  end.

(** Lines 128-132: the full track when [fetch_track] exists and succeeds,
    the entry itself otherwise. *)
Definition fetch_full (track : pyval) : pyval :=
  match py_getattr track "fetch_track" with
  | Some m =>
    match py_call m with
    | inr full => full
    | inl _ => track
    end
  | None => track
  end.

(** Lines 135-137. *)
Definition resolve_title (track : pyval) : pyval :=
  let title := getattr_default track "title" (VStr UNKNOWN_TRACK) in
  if py_eq_str title UNKNOWN_TRACK then
    match attr_truthy track "track" with
    | Some inner => getattr_default inner "title" (VStr UNKNOWN_TRACK)
    | None => title
    end
  else title.

(** [[artist.name for artist in artists if hasattr(artist, 'name')]]. *)
Definition artist_names (artists : pyval) : result pyval :=
  let? l := py_iter artists in
  inr (VList (flat_map (fun artist =>
                match py_getattr artist "name" with
                | Some n => [n]
                | None => []
                end) l)).

(** Lines 140-146. *)
Definition resolve_artists (track : pyval) : result pyval :=
  match attr_truthy track "artists" with
  | Some a => artist_names a
  | None =>
    match attr_truthy track "artists_name" with
    | Some names => inr names
    | None =>
      match attr_truthy track "track" with
      | Some inner =>
        match py_getattr inner "artists" with
        | Some a => artist_names a
        | None => inr (VList [])
        end
      | None => inr (VList [])
      end
    end
  end.

(** Line 148. *)
Definition artists_str (artists : pyval) : result str :=
  if truthy artists then py_join COMMA_SPACE artists else inr UNKNOWN_ARTIST.

(** [album = albums[0]; album_id = getattr(album, 'id', None)]. *)
Definition first_album_id (albums : pyval) : result pyval :=
  let? album := py_index0 albums in
  inr (getattr_default album "id" VNone).

(** Lines 151-159. *)
Definition resolve_album_id (track : pyval) : result pyval :=
  match attr_truthy track "albums" with
  | Some albums => first_album_id albums
  | None =>
    match attr_truthy track "album_id" with
    | Some a => inr a
    | None =>
      match attr_truthy track "track" with
      | Some inner =>
        match attr_truthy inner "albums" with
        | Some albums => first_album_id albums
        | None => inr VNone
        end
      | None => inr VNone
      end
    end
  end.

(** Lines 162-165. *)
Definition track_url (album_id : pyval) (track_id : str) : str :=
  if truthy album_id
  then ALBUM_URL ++ py_str album_id ++ TRACK_INFIX ++ track_id
  else TRACK_URL ++ track_id.

(** The [try] block of get_track_info (lines 122-172). *)
Definition get_track_info_try (track : pyval) : result (option info) :=
  let track_id := get_track_id track in
  if negb (nonempty track_id) then inr None
  else
    let tid := match track_id with Some s => s | None => [] end in
    let track := fetch_full track in
    let title := resolve_title track in
    let? artists := resolve_artists track in
    let? artists_s := artists_str artists in
    let? album_id := resolve_album_id track in
    inr (Some (Info tid title artists_s (track_url album_id tid))).

(** The function under the decorator: [except Exception: return None]. *)
Definition get_track_info_body (track : pyval) : option info :=
  match get_track_info_try track with
  | inr r => r
  | inl _ => None
  end.

End Normalizer.

(** ** The world outside the process, and the state of the process *)

Inductive event :=
| EvClientInit
| EvUsersPlaylists (kind user : str)
| EvHttpGet (url : str) (headers : list (str * str)) (timeout : Z)
| EvClientTracks (track_ids : list pyval)
| EvSleep (seconds : Q).

(** What the code reads of a [requests] response. *)
Record response := Response {
  status_code : Z;
  json : result pyval;
}.

(** The remote service and the environment.  Each remote operation answers
    from its arguments and the history of events so far, so that repeated
    calls may answer differently. *)
Record Remote := {
  environ_get : str -> option str;
  Client_init : list event -> result unit;
  users_playlists : list event -> str -> str -> result pyval;
  requests_get : list event -> str -> list (str * str) -> Z -> result response;
  client_tracks : list event -> list pyval -> result pyval;
}.

Record State := mkState {
  trace : list event;                              (* most recent first *)
  parse_cache : list (str * playlist_info);        (* lru_cache(maxsize=100) *)
  uuid_cache : list ((nat * str) * pyval);         (* lru_cache(maxsize=50) *)
  next_service : nat;                              (* identity of the next instance *)
}.

Definition initial_state : State := mkState [] [] [] 0.

Definition add_event (e : event) (st : State) : State :=
  mkState (e :: trace st) (parse_cache st) (uuid_cache st) (next_service st).
Definition set_parse_cache (c : list (str * playlist_info)) (st : State) : State :=
  mkState (trace st) c (uuid_cache st) (next_service st).
Definition set_uuid_cache (c : list ((nat * str) * pyval)) (st : State) : State :=
  mkState (trace st) (parse_cache st) c (next_service st).

Definition M (A : Type) : Type := State -> result A * State.

Definition ret {A} (a : A) : M A := fun st => (inr a, st).
Definition raise {A} (e : exn) : M A := fun st => (inl e, st).
Definition lift {A} (r : result A) : M A := fun st => (r, st).

Definition bind {A B} (m : M A) (k : A -> M B) : M B :=
  fun st =>
    match m st with
    | (inr a, st') => k a st'
    | (inl e, st') => (inl e, st')
    end.

(** [try: m except Exception as e: h e]. *)
Definition try_except {A} (m : M A) (h : exn -> M A) : M A :=
  fun st =>
    match m st with
    | (inr a, st') => (inr a, st')
    | (inl e, st') => h e st'
    end.

Notation "x <- m ;; k" := (bind m (fun x => k))
  (at level 61, m at next level, right associativity).

(** A remote operation: the oracle answers from the history, the call is
    recorded. *)
Definition remote_call {A} (ev : event) (oracle : list event -> result A) : M A :=
  fun st => (oracle (trace st), add_event ev st).

(** [time.sleep(x)]: the sleep is recorded with its length, an exception
    passes through. *)
Definition sleep `{Platform} (x : number) : M unit :=
  fun st =>
    match time_sleep x with
    | inr q => (inr tt, add_event (EvSleep q) st)
    | inl e => (inl e, st)
    end.

(** ** functools.lru_cache

    The cache is a list of entries, most recently used first.  A hit moves
    the entry to the front; a miss calls the function, and stores its value
    unless it raised, dropping the least recently used entry when full. *)

Section LruCache.
Context {K V : Type} (eqb : K -> K -> bool).

Fixpoint lru_find (key : K) (c : list (K * V)) : option V :=
  match c with
  | [] => None
  | (k, v) :: t => if eqb key k then Some v else lru_find key t
  end.

Fixpoint lru_remove (key : K) (c : list (K * V)) : list (K * V) :=
  match c with
  | [] => []
  | (k, v) :: t => if eqb key k then t else (k, v) :: lru_remove key t
  end.

Definition lru_store (maxsize : nat) (key : K) (v : V) (c : list (K * V))
  : list (K * V) :=
  firstn maxsize ((key, v) :: lru_remove key c).

Definition lru_cache (maxsize : nat)
           (get : State -> list (K * V))
           (set : list (K * V) -> State -> State)
           (func : K -> M V) (key : K) : M V :=
  fun st =>
    match lru_find key (get st) with
    | Some v => (inr v, set (lru_store maxsize key v (get st)) st)
    | None =>
      match func key st with
      | (inr v, st') => (inr v, set (lru_store maxsize key v (get st')) st')
      | (inl e, st') => (inl e, st')
      end
    end.

End LruCache.

(** ** yandex_service.py: retry_on_error *)

Section Retry.
Context `{Platform} {A : Type}.
Variables (max_retries : Z) (delay : number).
Variable none : A.            (* the [None] of the final [return None] *)
Variable func : M A.

(** The [for attempt in range(max_retries)] loop, [remaining] iterations
    left, at index [attempt].  An exception of the product
    [delay * (attempt + 1)] or of [time.sleep] leaves the [except] block
    and the wrapper. *)
Fixpoint retry_loop (remaining : nat) (attempt : Z) : M A :=
  match remaining with
  | O => ret none
  | S n =>
    fun st =>
      match func st with
      | (inr v, st') => (inr v, st')
      | (inl e, st') =>
        if (attempt =? max_retries - 1)%Z then (inl e, st')
        else (x <- lift (number_mul delay (attempt + 1)) ;;
              _ <- sleep x ;;
              retry_loop n (attempt + 1)%Z) st'
      end
  end.

Definition retry_on_error : M A := retry_loop (Z.to_nat max_retries) 0%Z.

End Retry.

(** ** yandex_service.py: YandexMusicService *)

Definition NO_TRACKS_MSG : str :=
  Eval vm_compute in u "Плейлист не найден или не содержит треков".
Definition GET_TRACKS_FAILED : str := Eval vm_compute in u "Не удалось получить треки: ".
Definition TOKEN_VAR : str := Eval vm_compute in u "YANDEX_OAUTH_TOKEN".
Definition TOKEN_MISSING_MSG : str :=
  Eval vm_compute in u "YANDEX_OAUTH_TOKEN environment variable is not set!".
Definition API_URL : str := Eval vm_compute in u "https://api.music.yandex.net/playlist/".
Definition REQUEST_ERROR : str := Eval vm_compute in u "Ошибка при запросе: ".
Definition UUID_FAILED : str := Eval vm_compute in u "Не удалось получить треки по UUID: ".

Definition request_headers (oauth_token : str) : list (str * str) :=
  [ (u "Authorization", u "OAuth " ++ oauth_token);
    (u "Content-Type", u "application/json; charset=utf-8");
    (u "User-Agent", u "Yandex-Music-API");
    (u "Accept", u "application/json") ].

Definition uuid_key_eqb (a b : nat * str) : bool :=
  Nat.eqb (fst a) (fst b) && str_eqb (snd a) (snd b).

Section Service.
Context `{Platform}.
Variable R : Remote.

(** [YandexMusicService()]: [Client().init()], the exception re-raised after
    logging.  The instance is represented by its identity. *)
Definition YandexMusicService : M nat :=
  _ <- remote_call EvClientInit (Client_init R) ;;
  fun st =>
    (inr (next_service st),
     mkState (trace st) (parse_cache st) (uuid_cache st) (S (next_service st))).

(** The [try] block of get_tracks (lines 46-57). *)
Definition get_tracks_try (user playlist_id : str) : M pyval :=
  playlist <- remote_call (EvUsersPlaylists playlist_id user)
                          (fun h => users_playlists R h playlist_id user) ;;
  playlist <- lift (match playlist with
                    | VList _ => py_index0 playlist
                    | _ => inr playlist
                    end) ;;
  if negb (truthy playlist) || negb (py_hasattr playlist "tracks")
  then raise (Exn ValueError NO_TRACKS_MSG)
  else
    _ <- match py_getattr playlist "fetch_tracks" with
         | Some m => lift (py_call m)
         | None => ret VNone
         end ;;
    ret (getattr_default playlist "tracks" VNone).

(** The function under the decorator. *)
Definition get_tracks_body (user playlist_id : str) : M pyval :=
  try_except (get_tracks_try user playlist_id)
             (fun e => raise (Exn ValueError (GET_TRACKS_FAILED ++ exn_msg e))).

Definition get_tracks (user playlist_id : str) : M pyval :=
  retry_on_error 3 (Int 1) VNone (get_tracks_body user playlist_id).

(** Lines 90-94. *)
Fixpoint collect_track_ids (tracks_data : list pyval) : result (list pyval) :=
  match tracks_data with
  | [] => inr []
  | track_info :: rest =>
    let? track_data := py_dict_get track_info (u "track") (VDict []) in
    let? track_id := py_dict_get track_data (u "id") VNone in
    let? ids := collect_track_ids rest in
    inr (if truthy track_id then track_id :: ids else ids)
  end.

(** The [try] block of get_tracks_by_uuid (lines 66-101). *)
Definition get_tracks_by_uuid_try (playlist_uuid : str) : M pyval :=
  let oauth_token := environ_get R TOKEN_VAR in
  if negb (nonempty oauth_token)
  then raise (Exn ValueError TOKEN_MISSING_MSG)
  else
    let token := match oauth_token with Some t => t | None => [] end in
    let url := API_URL ++ playlist_uuid in
    let headers := request_headers token in
    response <- remote_call (EvHttpGet url headers 10)
                            (fun h => requests_get R h url headers 10%Z) ;;
    track_ids <-
      (if (status_code response =? 200)%Z then
         playlist_data <- lift (json response) ;;
         playlist_info <- lift (py_dict_get playlist_data (u "result") (VDict [])) ;;
         tracks_data <- lift (py_dict_get playlist_info (u "tracks") (VList [])) ;;
         items <- lift (py_iter tracks_data) ;;
         lift (collect_track_ids items)
       else raise (Exn ValueError (REQUEST_ERROR ++ str_of_Z (status_code response)))) ;;
    match track_ids with
    | _ :: _ => remote_call (EvClientTracks track_ids)
                            (fun h => client_tracks R h track_ids)
    | [] => ret (VList [])
    end.

Definition get_tracks_by_uuid_body (key : nat * str) : M pyval :=
  try_except (get_tracks_by_uuid_try (snd key))
             (fun e => raise (Exn ValueError (UUID_FAILED ++ exn_msg e))).

(** The cache is keyed by the instance and the UUID. *)
Definition get_tracks_by_uuid (self : nat) (playlist_uuid : str) : M pyval :=
  lru_cache uuid_key_eqb 50 uuid_cache set_uuid_cache
            get_tracks_by_uuid_body (self, playlist_uuid).

(** [@retry_on_error(max_retries=3, delay=0.5)] around the body. *)
Definition get_track_info (track : pyval) : M (option info) :=
  retry_on_error 3 (Float HALF) None
                 (fun st => (inr (get_track_info_body track), st)).

End Service.

(** ** app.py *)

(** A Python [dict] with string keys: entries in insertion order, an
    assignment to an existing key replacing its value in place. *)
Fixpoint dict_set {V} (k : str) (v : V) (d : list (str * V)) : list (str * V) :=
  match d with
  | [] => [(k, v)]
  | (k', v') :: t =>
    if str_eqb k k' then (k, v) :: t else (k', v') :: dict_set k v t
  end.

Record comparison := Comparison {
  common_tracks : list info;
  error : option str;
}.

Definition EMPTY_INPUT_MSG : str :=
  Eval vm_compute in u "Введите обе ссылки на плейлисты".

Record request := Request {
  method : str;
  x_requested_with : option str;
  request_json : result pyval;
}.

Inductive http_response :=
| RenderTemplate (template : str)
| Jsonify (body : pyval).

Definition info_dict (i : info) : pyval :=
  VDict [ (u "id", VStr (info_id i)); (u "title", info_title i);
          (u "artists", VStr (info_artists i)); (u "url", VStr (info_url i)) ].

Definition comparison_dict (c : comparison) : pyval :=
  VDict [ (u "common_tracks", VList (map info_dict (common_tracks c)));
          (u "error", match error c with Some m => VStr m | None => VNone end) ].

Section App.
Context `{Platform}.
Variable R : Remote.

Definition parse_playlist_url_cached (url : str) : M playlist_info :=
  lru_cache str_eqb 100 parse_cache set_parse_cache
            (fun url => lift (parse_playlist_url url)) url.

(** Lines 42-46. *)
Definition build_tracks_dict (tracks : list pyval) : list (str * pyval) :=
  fold_left (fun tracks_dict track =>
               match get_track_id track with
               | Some (c :: s) => dict_set (c :: s) track tracks_dict
               | _ => tracks_dict
               end) tracks [].

Definition process_playlist (service : nat) (playlist_info : playlist_info)
  : M (list (str * pyval)) :=
  tracks <- match playlist_info with
            | Uuid uuid => get_tracks_by_uuid R service uuid
            | UserKind user kind => get_tracks R user kind
            end ;;
  tracks <- lift (py_iter tracks) ;;
  ret (build_tracks_dict tracks).

(** Lines 63-73.  The two tasks run on a pool of two threads and their
    results are collected as they complete: [first_done] says whether the
    task of the first URL completes first.  The tasks are run one after the
    other in that order; leaving the [with] block waits for both. *)
Definition as_completed_results {A} (first_done : bool) (task1 task2 : M A)
  : M (A * A) :=
  fun st =>
    let '(a, b) := if first_done then (task1, task2) else (task2, task1) in
    let '(ra, st1) := a st in
    let '(rb, st2) := b st1 in
    match ra, rb with
    | inl e, _ => (inl e, st2)
    | inr _, inl e => (inl e, st2)
    | inr x, inr y => (inr (x, y), st2)
    end.

(** Lines 79-84. *)
Fixpoint collect_infos (tracks1_dict : list (str * pyval)) (ids : list str)
  : M (list info) :=
  match ids with
  | [] => ret []
  | track_id :: rest =>
    track <- lift (match dict_lookup track_id tracks1_dict with
                   | Some t => inr t
                   | None => inl (Exn KeyError track_id)
                   end) ;;
    i <- get_track_info track ;;
    tl <- collect_infos tracks1_dict rest ;;
    ret (match i with Some x => x :: tl | None => tl end)
  end.

(** [key=lambda x: x['title'].lower()]: the lower-cased text of a string,
    and for any other value what calling its attribute [lower] returns. *)
Definition sort_key (x : info) : result pyval :=
  match info_title x with
  | VStr s => inr (VStr (lower s))
  | v =>
    match py_getattr v "lower" with
    | Some m => py_call m
    | None => inl (no_attribute v "lower")
    end
  end.

(** The keys are computed for the whole list before any comparison. *)
Fixpoint with_keys (l : list info) : result (list (pyval * info)) :=
  match l with
  | [] => inr []
  | x :: t =>
    let? k := sort_key x in
    let? kt := with_keys t in
    inr ((k, x) :: kt)
  end.

(** The keyed list when every key is a string. *)
Fixpoint str_keys (kl : list (pyval * info)) : option (list (str * info)) :=
  match kl with
  | [] => Some []
  | (VStr k, x) :: t =>
    match str_keys t with
    | Some r => Some ((k, x) :: r)
    | None => None
    end
  | _ :: _ => None
  end.

(** [list.sort] is stable and compares keys with [<]. *)
Fixpoint insert_by_key (x : str * info) (l : list (str * info))
  : list (str * info) :=
  match l with
  | [] => [x]
  | h :: t => if str_ltb (fst h) (fst x) then h :: insert_by_key x t else x :: l
  end.

(** String keys are sorted by code points.  With another key in the list,
    a list of fewer than two entries is left as it is, no comparison being
    made, and a longer one is sorted by the comparisons of the keys'
    classes. *)
Definition sort_by_title (l : list info) : result (list info) :=
  let? kl := with_keys l in
  match str_keys kl with
  | Some skl => inr (map snd (fold_right insert_by_key [] skl))
  | None =>
    match kl with
    | _ :: _ :: _ => let? sorted := sort_other info kl in inr (map snd sorted)
    | _ => inr l
    end
  end.

(** Lines 76-86, from the two dictionaries on. *)
Definition compare_dicts (tracks1_dict tracks2_dict : list (str * pyval))
  : M (list info) :=
  let common_ids := set_inter_iter (map fst tracks1_dict) (map fst tracks2_dict) in
  common <- collect_infos tracks1_dict common_ids ;;
  lift (sort_by_title common).

(** The [try] block of process_playlists_async. *)
Definition process_playlists_try (first_done : bool) (url1 url2 : str)
  : M (list info) :=
  service <- YandexMusicService R ;;
  playlist1_info <- parse_playlist_url_cached url1 ;;
  playlist2_info <- parse_playlist_url_cached url2 ;;
  results <- as_completed_results first_done
               (process_playlist service playlist1_info)
               (process_playlist service playlist2_info) ;;
  let '(tracks1_dict, tracks2_dict) := results in
  compare_dicts tracks1_dict tracks2_dict.

Definition process_playlists_async (first_done : bool) (url1 url2 : str)
  : State -> comparison * State :=
  fun st =>
    match process_playlists_try first_done url1 url2 st with
    | (inr common, st') => (Comparison common None, st')
    | (inl e, st') => (Comparison [] (Some (exn_msg e)), st')
    end.

(** [v.strip()] for the value of a JSON field. *)
Definition py_strip (v : pyval) : result str :=
  match v with
  | VStr s => inr (strip s)
  | _ => inl (no_attribute v "strip")
  end.

(** Lines 105-110: the response to return at once when a URL does not
    parse. *)
Definition validate (url1 url2 : str) : M (option http_response) :=
  try_except
    (_ <- parse_playlist_url_cached url1 ;;
     _ <- parse_playlist_url_cached url2 ;;
     ret None)
    (fun e => if is_ValueError e
              then ret (Some (Jsonify (VDict [(u "error", VStr (exn_msg e))])))
              else raise e).

Definition index (first_done : bool) (req : request) : M http_response :=
  if str_eqb (method req) (u "POST")
     && match x_requested_with req with
        | Some h => str_eqb h (u "XMLHttpRequest")
        | None => false
        end
  then
    body <- lift (request_json req) ;;
    v1 <- lift (py_dict_get body (u "playlist1") (VStr [])) ;;
    url1 <- lift (py_strip v1) ;;
    v2 <- lift (py_dict_get body (u "playlist2") (VStr [])) ;;
    url2 <- lift (py_strip v2) ;;
    match url1, url2 with
    | _ :: _, _ :: _ =>
      invalid <- validate url1 url2 ;;
      match invalid with
      | Some resp => ret resp
      | None =>
        fun st =>
          let '(r, st') := process_playlists_async first_done url1 url2 st in
          (inr (Jsonify (comparison_dict r)), st')
      end
    | _, _ => ret (Jsonify (VDict [(u "error", VStr EMPTY_INPUT_MSG)]))
    end
  else ret (RenderTemplate (u "index.html")).

End App.

(** ** A platform restricted to ASCII

    Used to run the definitions on concrete inputs: decimal digits and
    white space are the ASCII ones, [lower] maps A-Z to a-z, a set
    intersection is iterated in the order of its first operand, a sleep of
    any non-negative length is accepted, and only string keys are sorted. *)

Definition ascii_lower (s : str) : str :=
  map (fun c => if (65 <=? c) && (c <=? 90) then c + 32 else c) s.

Definition ordered_inter (k1 k2 : list str) : list str :=
  filter (fun x => existsb (str_eqb x) k2) (nodup (list_eq_dec N.eq_dec) k1).

Lemma ordered_inter_NoDup k1 k2 : NoDup (ordered_inter k1 k2).
Proof. apply NoDup_filter, NoDup_nodup. Qed.

Lemma ordered_inter_In k1 k2 x :
  In x (ordered_inter k1 k2) <-> In x k1 /\ In x k2.
Proof.
  unfold ordered_inter. rewrite filter_In, nodup_In, existsb_exists.
  unfold str_eqb. split.
  - intros [H1 [y [H2 H3]]]. split; [assumption|].
    destruct (list_eq_dec N.eq_dec x y); congruence.
  - intros [H1 H2]. split; [assumption|]. exists x. split; [assumption|].
    destruct (list_eq_dec N.eq_dec x x); congruence.
Qed.

(** [time.sleep] refusing what has no value in seconds and what is
    negative, and sleeping any other length. *)
Definition plain_sleep (x : number) : result Q :=
  match seconds x with
  | Some q =>
    if Qle_bool 0 q then inr q
    else inl (Exn ValueError (u "sleep length must be non-negative"))
  | None =>
    match x with
    | Float SpecFloat.S754_nan =>
      inl (Exn ValueError (u "Invalid value NaN (not a number)"))
    | _ => inl (Exn OverflowError (u "timestamp too large to convert to C _PyTime_t"))
    end
  end.

Lemma plain_sleep_accepts x q :
  seconds x = Some q -> (0 <= q)%Q -> (q <= 86400)%Q -> plain_sleep x = inr q.
Proof.
  intros Hx Hq _. unfold plain_sleep. rewrite Hx.
  apply Qle_bool_iff in Hq. now rewrite Hq.
Qed.

Lemma plain_sleep_negative x q :
  seconds x = Some q -> (-86400 <= q)%Q -> (q < 0)%Q ->
  plain_sleep x = inl (Exn ValueError (u "sleep length must be non-negative")).
Proof.
  intros Hx _ Hq. unfold plain_sleep. rewrite Hx.
  destruct (Qle_bool 0 q) eqn:E; [|reflexivity].
  apply Qle_bool_iff in E. now destruct (Qlt_not_le _ _ Hq E).
Qed.

(** Keys that are not all strings do not compare: the first comparison,
    of the second key with the first, raises. *)
Definition refuse_sort (T : Type) (l : list (pyval * T))
  : result (list (pyval * T)) :=
  match l with
  | (a, _) :: (b, _) :: _ =>
    inl (Exn TypeError (u "'<' not supported between instances of '"
                          ++ type_name b ++ u "' and '" ++ type_name a ++ u "'"))
  | _ => inr l
  end.

Lemma refuse_sort_perm (T : Type) (l l' : list (pyval * T)) :
  refuse_sort T l = inr l' -> Permutation l l'.
Proof.
  destruct l as [|[a x] [|[b y] l]]; try discriminate; now intros [= <-].
Qed.

Definition ascii_platform : Platform :=
  {| isdecimal c := (48 <=? c) && (c <=? 57);
     isspace c := (c =? 32) || ((9 <=? c) && (c <=? 13));
     lower := ascii_lower;
     lower_ascii := fun s _ => eq_refl;
     repr_other _ := u "<object>";
     set_inter_iter := ordered_inter;
     set_inter_iter_NoDup := ordered_inter_NoDup;
     set_inter_iter_In := ordered_inter_In;
     time_sleep := plain_sleep;
     time_sleep_accepts := plain_sleep_accepts;
     time_sleep_negative := plain_sleep_negative;
     sort_other := refuse_sort;
     sort_other_perm := refuse_sort_perm |}.

(** * Properties *)

(** ** The reference parser *)

Lemma str_eqb_eq (a b : str) : str_eqb a b = true <-> a = b.
Proof.
  unfold str_eqb. destruct (list_eq_dec N.eq_dec a b); split; congruence.
Qed.

Lemma str_eqb_refl (a : str) : str_eqb a a = true.
Proof. now apply str_eqb_eq. Qed.


(** A run of characters of a class ends where the text ends or the next
    character is outside the class. *)
Definition run_ends (P : char -> bool) (rest : str) : Prop :=
  match rest with
  | [] => True
  | c :: _ => P c = false
  end.

Lemma span_exists (P : char -> bool) (s : str) :
  exists run rest, s = run ++ rest /\ forallb P run = true /\ run_ends P rest.
Proof.
  induction s as [|c s IH].
  - exists [], []. simpl. auto.
  - destruct (P c) eqn:Pc.
    + destruct IH as (run & rest & -> & Hrun & Hend).
      exists (c :: run), rest. simpl. rewrite Pc, Hrun. auto.
    + exists [], (c :: s). simpl. auto.
Qed.

Section RegexFacts.
Context `{Platform}.

Lemma match_lit_app (p r : str) : match_lit p (p ++ r) = Some r.
Proof.
  induction p as [|a p IH]; simpl.
  - reflexivity.
  - rewrite N.eqb_refl. exact IH.
Qed.

Lemma match_lit_inv (p s r : str) : match_lit p s = Some r -> s = p ++ r.
Proof.
  revert s. induction p as [|a p IH]; intros s; simpl.
  - intros [= ->]. reflexivity.
  - destruct s as [|b s]; [discriminate|].
    destruct (N.eqb_spec a b) as [->|]; [|discriminate].
    intros Hm. now rewrite (IH _ Hm).
Qed.

Lemma greedy_longest {T} (P : char -> bool) (k : str -> str -> option T) r :
  forall run rest acc,
    forallb P run = true -> run_ends P rest ->
    k (acc ++ run) rest = Some r ->
    greedy P k acc (run ++ rest) = Some r.
Proof.
  induction run as [|c run IH]; intros rest acc Hrun Hend Hk; simpl in *.
  - rewrite app_nil_r in Hk.
    destruct rest as [|c t]; simpl in *; [assumption|].
    now rewrite Hend.
  - apply andb_prop in Hrun as [Pc Hrun]. rewrite Pc.
    rewrite (IH rest (acc ++ [c]) Hrun Hend); [reflexivity|].
    now rewrite <- app_assoc.
Qed.

Lemma greedy_inv {T} (P : char -> bool) (k : str -> str -> option T) r :
  forall s acc,
    greedy P k acc s = Some r ->
    exists run rest, s = run ++ rest /\ forallb P run = true /\
                     k (acc ++ run) rest = Some r.
Proof.
  induction s as [|c s IH]; intros acc Hg; simpl in Hg.
  - exists [], []. rewrite (app_nil_r acc). repeat split; assumption.
  - destruct (P c) eqn:Pc.
    + destruct (greedy P k (acc ++ [c]) s) as [r'|] eqn:Hrec.
      * injection Hg as ->.
        destruct (IH _ Hrec) as (run & rest & -> & Hrun & Hk).
        exists (c :: run), rest. simpl. rewrite Pc, Hrun.
        rewrite <- app_assoc in Hk. repeat split; assumption.
      * exists [], (c :: s). rewrite (app_nil_r acc). repeat split; assumption.
    + exists [], (c :: s). rewrite (app_nil_r acc). repeat split; assumption.
Qed.

Lemma re_search_found (r : regex) (s : str) (g : list str) :
  forall pre,
    match_here r s [] = Some g ->
    (forall pre1 c pre2, pre = pre1 ++ c :: pre2 ->
                         match_here r (c :: pre2 ++ s) [] = None) ->
    re_search r (pre ++ s) = Some g.
Proof.
  induction pre as [|c pre IH]; intros Hs Hpre.
  - simpl. destruct s; simpl; now rewrite Hs.
  - simpl. rewrite (Hpre [] c pre eq_refl).
    apply IH; [assumption|].
    intros pre1 c' pre2 ->. now apply (Hpre (c :: pre1) c' pre2).
Qed.

Lemma re_search_none (r : regex) (s : str) :
  (forall pre suf, s = pre ++ suf -> match_here r suf [] = None) ->
  re_search r s = None.
Proof.
  induction s as [|c s IH]; intros Hall.
  - simpl. now rewrite (Hall [] [] eq_refl).
  - simpl. rewrite (Hall [] (c :: s) eq_refl).
    apply IH. intros pre suf ->. now apply (Hall (c :: pre) suf).
Qed.

End RegexFacts.

(** The two link shapes, as the text of a URL: what precedes the match,
    the fixed text, the captured runs, and what follows. *)
Definition uuid_char (c : char) : bool := negb (c =? SLASH) && negb (c =? QUESTION).
Definition owner_char (c : char) : bool := negb (c =? SLASH).

Definition uuid_at (url pre tok rest : str) : Prop :=
  url = pre ++ UUID_PREFIX ++ tok ++ rest /\
  tok <> [] /\ forallb uuid_char tok = true.

Section Shapes.
Context `{Platform}.

Definition user_at (url pre owner digits rest : str) : Prop :=
  url = pre ++ USER_PREFIX ++ owner ++ PLAYLISTS_INFIX ++ digits ++ rest /\
  owner <> [] /\ forallb owner_char owner = true /\
  digits <> [] /\ forallb isdecimal digits = true.

Lemma class_uuid_char c : class_mem (Except [SLASH; QUESTION]) c = uuid_char c.
Proof.
  unfold class_mem, uuid_char. simpl.
  destruct (c =? SLASH), (c =? QUESTION); reflexivity.
Qed.

Lemma class_owner_char c : class_mem (Except [SLASH]) c = owner_char c.
Proof.
  unfold class_mem, owner_char. simpl. destruct (c =? SLASH); reflexivity.
Qed.

Lemma forallb_ext_eq {A} (f g : A -> bool) l :
  (forall x, f x = g x) -> forallb f l = forallb g l.
Proof. intros E. induction l; simpl; [reflexivity|]. now rewrite E, IHl. Qed.

Lemma run_ends_ext (P Q : char -> bool) rest :
  (forall x, P x = Q x) -> run_ends Q rest -> run_ends P rest.
Proof. intros E. destruct rest; simpl; [auto|]. now rewrite E. Qed.

Lemma match_uuid_here tok rest :
  tok <> [] -> forallb uuid_char tok = true -> run_ends uuid_char rest ->
  match_here UUID_RE (UUID_PREFIX ++ tok ++ rest) [] = Some [tok].
Proof.
  intros Hne Htok Hend. unfold UUID_RE. cbn [match_here].
  rewrite match_lit_app.
  destruct tok as [|c t]; [congruence|].
  cbn [app forallb] in *. apply andb_prop in Htok as [Hc Ht].
  rewrite class_uuid_char, Hc.
  apply greedy_longest.
  - now rewrite (forallb_ext_eq _ uuid_char) by apply class_uuid_char.
  - eapply run_ends_ext; [apply class_uuid_char | assumption].
  - reflexivity.
Qed.

Lemma match_uuid_here_inv s g :
  match_here UUID_RE s [] = Some g ->
  exists tok rest, s = UUID_PREFIX ++ tok ++ rest /\ tok <> [] /\
                   forallb uuid_char tok = true /\ g = [tok].
Proof.
  unfold UUID_RE. cbn [match_here].
  destruct (match_lit UUID_PREFIX s) as [r0|] eqn:Hlit; [|discriminate].
  apply match_lit_inv in Hlit. subst s.
  destruct r0 as [|c t]; [discriminate|].
  destruct (class_mem (Except [SLASH; QUESTION]) c) eqn:Hc; [|discriminate].
  intros Hg. apply greedy_inv in Hg as (run & rest & -> & Hrun & Hk).
  cbn [match_here rev app] in Hk. injection Hk as <-.
  exists (c :: run), rest. repeat split.
  - discriminate.
  - cbn [forallb]. rewrite <- class_uuid_char, Hc.
    now rewrite <- (forallb_ext_eq _ uuid_char) by apply class_uuid_char.
Qed.

Lemma match_user_here owner digits rest :
  owner <> [] -> forallb owner_char owner = true ->
  digits <> [] -> forallb isdecimal digits = true -> run_ends isdecimal rest ->
  match_here USER_RE (USER_PREFIX ++ owner ++ PLAYLISTS_INFIX ++ digits ++ rest) []
  = Some [owner; digits].
Proof.
  intros Hne Hown Hnd Hdig Hend. unfold USER_RE. cbn [match_here].
  rewrite match_lit_app.
  destruct owner as [|c t]; [congruence|].
  cbn [app forallb] in *. apply andb_prop in Hown as [Hc Ht].
  rewrite class_owner_char, Hc.
  apply greedy_longest.
  - now rewrite (forallb_ext_eq _ owner_char) by apply class_owner_char.
  - reflexivity.
  - rewrite match_lit_app.
    destruct digits as [|d t2]; [congruence|].
    cbn [app forallb class_mem] in *. apply andb_prop in Hdig as [Hd Ht2].
    rewrite Hd. apply greedy_longest; auto.
Qed.

Lemma match_user_here_inv s g :
  match_here USER_RE s [] = Some g ->
  exists owner digits rest,
    s = USER_PREFIX ++ owner ++ PLAYLISTS_INFIX ++ digits ++ rest /\
    owner <> [] /\ forallb owner_char owner = true /\
    digits <> [] /\ forallb isdecimal digits = true /\ g = [owner; digits].
Proof.
  unfold USER_RE. cbn [match_here].
  destruct (match_lit USER_PREFIX s) as [r0|] eqn:Hlit; [|discriminate].
  apply match_lit_inv in Hlit. subst s.
  destruct r0 as [|c t]; [discriminate|].
  destruct (class_mem (Except [SLASH]) c) eqn:Hc; [|discriminate].
  intros Hg. apply greedy_inv in Hg as (run & r1 & -> & Hrun & Hk).
  destruct (match_lit PLAYLISTS_INFIX r1) as [r2|] eqn:Hlit; [|discriminate].
  apply match_lit_inv in Hlit. subst r1.
  destruct r2 as [|d t2]; [discriminate|].
  cbn [class_mem] in Hk.
  destruct (isdecimal d) eqn:Hd; [|discriminate].
  apply greedy_inv in Hk as (run2 & rest & -> & Hrun2 & Hk).
  cbn [match_here rev app] in Hk. injection Hk as <-.
  exists (c :: run), (d :: run2), rest. repeat split.
  - discriminate.
  - cbn [forallb]. rewrite <- class_owner_char, Hc.
    now rewrite <- (forallb_ext_eq _ owner_char) by apply class_owner_char.
  - discriminate.
  - cbn [forallb]. now rewrite Hd.
Qed.

End Shapes.

Section ParseFacts.
Context `{Platform}.

Lemma re_search_hit (r : regex) (suf : str) (g : list str) :
  match_here r suf [] = Some g ->
  forall pre, re_search r (pre ++ suf) <> None.
Proof.
  intros Hm. induction pre as [|c pre IH]; simpl.
  - destruct suf; simpl; now rewrite Hm.
  - destruct (match_here r (c :: pre ++ suf) []); [discriminate | exact IH].
Qed.

Lemma uuid_at_search url pre tok rest :
  uuid_at url pre tok rest -> re_search UUID_RE url <> None.
Proof.
  intros (-> & Hne & Htok).
  destruct (span_exists uuid_char rest) as (run & rest' & -> & Hrun & Hend).
  apply re_search_hit with (g := [tok ++ run]).
  rewrite (app_assoc tok run rest').
  apply match_uuid_here; [ | | assumption].
  - destruct tok; [congruence | discriminate].
  - now rewrite forallb_app, Htok, Hrun.
Qed.

Lemma user_at_search url pre owner digits rest :
  user_at url pre owner digits rest -> re_search USER_RE url <> None.
Proof.
  intros (-> & Hne & Hown & Hnd & Hdig).
  destruct (span_exists isdecimal rest) as (run & rest' & -> & Hrun & Hend).
  apply re_search_hit with (g := [owner; digits ++ run]).
  rewrite (app_assoc digits run rest').
  apply match_user_here; try assumption.
  - destruct digits; [congruence | discriminate].
  - now rewrite forallb_app, Hdig, Hrun.
Qed.

Lemma search_uuid_first url pre tok rest :
  uuid_at url pre tok rest -> run_ends uuid_char rest ->
  (forall pre' tok' rest',
      uuid_at url pre' tok' rest' -> (List.length pre <= List.length pre')%nat) ->
  re_search UUID_RE url = Some [tok].
Proof.
  intros (-> & Hne & Htok) Hend Hmin.
  apply re_search_found.
  - now apply match_uuid_here.
  - intros pre1 c pre2 ->.
    destruct (match_here UUID_RE (c :: pre2 ++ UUID_PREFIX ++ tok ++ rest) [])
      as [g|] eqn:E; [exfalso | reflexivity].
    apply match_uuid_here_inv in E as (tok' & rest' & E & Hne' & Htok' & _).
    specialize (Hmin pre1 tok' rest').
    rewrite length_app in Hmin. cbn [List.length] in Hmin.
    enough (List.length pre1 + S (List.length pre2) <= List.length pre1)%nat by lia.
    apply Hmin. split; [|split; assumption].
    rewrite <- app_assoc. cbn [app]. now rewrite E.
Qed.

Lemma search_uuid_absent url :
  (forall pre tok rest, ~ uuid_at url pre tok rest) ->
  re_search UUID_RE url = None.
Proof.
  intros Hno. apply re_search_none. intros pre suf ->.
  destruct (match_here UUID_RE suf []) as [g|] eqn:E; [exfalso | reflexivity].
  apply match_uuid_here_inv in E as (tok & rest & -> & Hne & Htok & _).
  apply (Hno pre tok rest). now repeat split.
Qed.

Lemma search_user_first url pre owner digits rest :
  user_at url pre owner digits rest -> run_ends isdecimal rest ->
  (forall pre' owner' digits' rest',
      user_at url pre' owner' digits' rest' -> (List.length pre <= List.length pre')%nat) ->
  re_search USER_RE url = Some [owner; digits].
Proof.
  intros (-> & Hne & Hown & Hnd & Hdig) Hend Hmin.
  apply re_search_found.
  - now apply match_user_here.
  - intros pre1 c pre2 ->.
    match goal with |- ?m = None => destruct m as [g|] eqn:E end;
      [exfalso | reflexivity].
    apply match_user_here_inv in E
      as (owner' & digits' & rest' & E & Hne' & Hown' & Hnd' & Hdig' & _).
    specialize (Hmin pre1 owner' digits' rest').
    rewrite length_app in Hmin. cbn [List.length] in Hmin.
    enough (List.length pre1 + S (List.length pre2) <= List.length pre1)%nat by lia.
    apply Hmin. split; [|repeat split; assumption].
    rewrite <- app_assoc. cbn [app]. now rewrite E.
Qed.

Lemma search_user_absent url :
  (forall pre owner digits rest, ~ user_at url pre owner digits rest) ->
  re_search USER_RE url = None.
Proof.
  intros Hno. apply re_search_none. intros pre suf ->.
  destruct (match_here USER_RE suf []) as [g|] eqn:E; [exfalso | reflexivity].
  apply match_user_here_inv in E
    as (owner & digits & rest & -> & Hne & Hown & Hnd & Hdig & _).
  apply (Hno pre owner digits rest). now repeat split.
Qed.

(** The cache of the parser holds only results of the parser. *)
Definition parse_cache_valid (c : list (str * playlist_info)) : Prop :=
  Forall (fun e => parse_playlist_url (fst e) = inr (snd e)) c.

Lemma lru_find_In {V} (key : str) (c : list (str * V)) v :
  lru_find str_eqb key c = Some v -> In (key, v) c.
Proof.
  induction c as [|[k w] c IH]; simpl; [discriminate|].
  destruct (str_eqb key k) eqn:E.
  - apply str_eqb_eq in E. intros [= ->]. left. now subst.
  - intros Hf. right. now apply IH.
Qed.

Lemma Forall_lru_remove {K V} (eqb : K -> K -> bool) (P : K * V -> Prop) key c :
  Forall P c -> Forall P (lru_remove eqb key c).
Proof.
  induction 1 as [|[k w] c Hx Hc IH]; simpl; [constructor|].
  destruct (eqb key k); [assumption | now constructor].
Qed.

Lemma Forall_firstn_keep {A} (P : A -> Prop) n (l : list A) :
  Forall P l -> Forall P (firstn n l).
Proof.
  intros Hl. revert n. induction Hl; intros [|n]; simpl; constructor; auto.
Qed.

Lemma Forall_lru_store {K V} (eqb : K -> K -> bool) (P : K * V -> Prop) n key v c :
  P (key, v) -> Forall P c -> Forall P (lru_store eqb n key v c).
Proof.
  intros Hkv Hc. unfold lru_store. apply Forall_firstn_keep.
  constructor; [assumption | now apply Forall_lru_remove].
Qed.

Lemma parse_playlist_url_cached_transparent url st :
  parse_cache_valid (parse_cache st) ->
  fst (parse_playlist_url_cached url st) = parse_playlist_url url /\
  parse_cache_valid (parse_cache (snd (parse_playlist_url_cached url st))) /\
  trace (snd (parse_playlist_url_cached url st)) = trace st /\
  uuid_cache (snd (parse_playlist_url_cached url st)) = uuid_cache st /\
  next_service (snd (parse_playlist_url_cached url st)) = next_service st.
Proof.
  intros Hv. unfold parse_playlist_url_cached, lru_cache.
  destruct (lru_find str_eqb url (parse_cache st)) as [v|] eqn:Hf.
  - assert (Hin := lru_find_In _ _ _ Hf).
    assert (Hp : parse_playlist_url url = inr v).
    { unfold parse_cache_valid in Hv. rewrite Forall_forall in Hv.
      exact (Hv _ Hin). }
    simpl. repeat split; auto.
    apply Forall_lru_store; assumption.
  - unfold lift. destruct (parse_playlist_url url) as [e|v] eqn:Hp; simpl.
    + repeat split; auto.
    + repeat split; auto. apply Forall_lru_store; assumption.
Qed.

End ParseFacts.

(** C1.  A URL containing [music.yandex.ru/playlists/<token>], the token
    being the run of characters other than [/] and [?] that follows the
    leftmost such occurrence, parses to [Uuid token]; a URL without that
    shape containing [music.yandex.ru/users/<owner>/playlists/<digits>]
    parses to [UserKind owner digits], for the leftmost occurrence and its
    whole run of digits; any other URL raises the [ValueError] of an invalid
    link.  The first shape is tried first: the first part holds whether or
    not the second shape occurs too. *)
Theorem parse_playlist_url_cached_shapes `{Platform} (url : str) (st : State) :
  parse_cache_valid (parse_cache st) ->
  (forall pre tok rest,
      uuid_at url pre tok rest -> run_ends uuid_char rest ->
      (forall pre' tok' rest',
          uuid_at url pre' tok' rest' -> (List.length pre <= List.length pre')%nat) ->
      fst (parse_playlist_url_cached url st) = inr (Uuid tok)) /\
  ((forall pre tok rest, ~ uuid_at url pre tok rest) ->
   forall pre owner digits rest,
     user_at url pre owner digits rest -> run_ends isdecimal rest ->
     (forall pre' owner' digits' rest',
         user_at url pre' owner' digits' rest' ->
         (List.length pre <= List.length pre')%nat) ->
     fst (parse_playlist_url_cached url st) = inr (UserKind owner digits)) /\
  ((forall pre tok rest, ~ uuid_at url pre tok rest) ->
   (forall pre owner digits rest, ~ user_at url pre owner digits rest) ->
   fst (parse_playlist_url_cached url st) = inl (Exn ValueError BAD_LINK_MSG)).
Proof.
  intros Hv.
  destruct (parse_playlist_url_cached_transparent url st Hv) as [-> _].
  unfold parse_playlist_url. repeat split.
  - intros pre tok rest Hat Hend Hmin.
    now rewrite (search_uuid_first url pre tok rest Hat Hend Hmin).
  - intros Hno pre owner digits rest Hat Hend Hmin.
    rewrite (search_uuid_absent url Hno).
    now rewrite (search_user_first url pre owner digits rest Hat Hend Hmin).
  - intros Hno Hno'.
    now rewrite (search_uuid_absent url Hno), (search_user_absent url Hno').
Qed.

Lemma parse_playlist_url_cached_shapes_witness :
  fst (@parse_playlist_url_cached ascii_platform
         (u "music.yandex.ru/playlists/abc?x=1") initial_state)
  = inr (Uuid (u "abc")) /\
  fst (@parse_playlist_url_cached ascii_platform
         (u "music.yandex.ru/users/bob/playlists/12/x") initial_state)
  = inr (UserKind (u "bob") (u "12")) /\
  fst (@parse_playlist_url_cached ascii_platform
         (u "music.yandex.ru/album/1") initial_state)
  = inl (Exn ValueError BAD_LINK_MSG).
Proof.
  split; [|split].
  - apply (proj1 (@parse_playlist_url_cached_shapes ascii_platform
                    (u "music.yandex.ru/playlists/abc?x=1") initial_state
                    (Forall_nil _))
                 [] (u "abc") (u "?x=1")).
    + split; [reflexivity | split; [discriminate | reflexivity]].
    + reflexivity.
    + intros. simpl. lia.
  - apply (proj1 (proj2 (@parse_playlist_url_cached_shapes ascii_platform
                    (u "music.yandex.ru/users/bob/playlists/12/x") initial_state
                    (Forall_nil _)))
                 (fun pre tok rest Hat =>
                    @uuid_at_search ascii_platform _ pre tok rest Hat eq_refl)
                 [] (u "bob") (u "12") (u "/x")).
    + split; [reflexivity | repeat split; (discriminate || reflexivity)].
    + reflexivity.
    + intros. simpl. lia.
  - apply (proj2 (proj2 (@parse_playlist_url_cached_shapes ascii_platform
                    (u "music.yandex.ru/album/1") initial_state
                    (Forall_nil _)))).
    + intros pre tok rest Hat.
      exact (@uuid_at_search ascii_platform _ pre tok rest Hat eq_refl).
    + intros pre owner digits rest Hat.
      exact (@user_at_search ascii_platform _ pre owner digits rest Hat eq_refl).
Defined.

(** ** The retry wrapper *)

Section RetryFacts.
Context `{Platform} {A : Type}.
Variables (max_retries : Z) (delay : number) (none : A) (func : M A).

(** [time.sleep] accepts the product of the delay and [k]: the product is
    computed, and the sleep returns. *)
Definition sleep_accepted (k : Z) : Prop :=
  exists x q, number_mul delay k = inr x /\ time_sleep x = inr q.

(** The seconds slept by [time.sleep(delay * k)]. *)
Definition slept (k : Z) : Q :=
  match number_mul delay k with
  | inr x => match time_sleep x with inr q => q | inl _ => 0 end
  | inl _ => 0
  end.

(** The state in which the next attempt starts once [k] attempts have
    failed: after the [k]-th failure the wrapper has slept for the product
    of the delay and [k]. *)
Fixpoint after_failures (st : State) (k : nat) : State :=
  match k with
  | O => st
  | S k' =>
    add_event (EvSleep (slept (Z.of_nat k' + 1)))
              (snd (func (after_failures st k')))
  end.

(** The same, counting from the attempt of index [a]. *)
Fixpoint after_failures_from (a : Z) (st : State) (k : nat) : State :=
  match k with
  | O => st
  | S k' =>
    add_event (EvSleep (slept (a + Z.of_nat k' + 1)))
              (snd (func (after_failures_from a st k')))
  end.

Lemma after_failures_from_0 st k :
  after_failures_from 0 st k = after_failures st k.
Proof.
  induction k as [|k IH]; simpl; [reflexivity|]. now rewrite IH.
Qed.

Lemma after_failures_from_shift a st k :
  after_failures_from a st (S k)
  = after_failures_from
      (a + 1) (add_event (EvSleep (slept (a + 1))) (snd (func st))) k.
Proof.
  induction k as [|k IH].
  - simpl. now rewrite Z.add_0_r.
  - change (after_failures_from a st (S (S k)))
      with (add_event (EvSleep (slept (a + Z.of_nat (S k) + 1)))
                      (snd (func (after_failures_from a st (S k))))).
    rewrite IH. cbn [after_failures_from].
    replace (a + Z.of_nat (S k) + 1)%Z with (a + 1 + Z.of_nat k + 1)%Z by lia.
    reflexivity.
Qed.

(** An accepted sleep is recorded, and the loop goes on. *)
Lemma sleep_step {B} (k : Z) (m : M B) st :
  sleep_accepted k ->
  (x <- lift (number_mul delay k) ;; _ <- sleep x ;; m) st
  = m (add_event (EvSleep (slept k)) st).
Proof.
  intros (x & q & Hx & Hq). unfold bind, lift, sleep, slept.
  now rewrite Hx, Hq.
Qed.

(** A refused sleep ends the wrapper with the exception of the sleep. *)
Lemma sleep_refused {B} (k : Z) (m : M B) x e st :
  number_mul delay k = inr x -> time_sleep x = inl e ->
  (x <- lift (number_mul delay k) ;; _ <- sleep x ;; m) st = (inl e, st).
Proof.
  intros Hx He. unfold bind, lift, sleep. now rewrite Hx, He.
Qed.

Lemma retry_loop_success :
  forall k n a st v,
    (k < n)%nat -> (0 <= a)%Z -> (a + Z.of_nat n = max_retries)%Z ->
    (forall j, (a + 1 <= j < max_retries)%Z -> sleep_accepted j) ->
    (forall j, (j < k)%nat -> exists e, fst (func (after_failures_from a st j)) = inl e) ->
    fst (func (after_failures_from a st k)) = inr v ->
    retry_loop max_retries delay none func n a st
    = (inr v, snd (func (after_failures_from a st k))).
Proof.
  induction k as [|k IH]; intros n a st v Hkn Ha Hn Hacc Hfail Hok.
  - destruct n as [|n]; [lia|]. cbn [retry_loop after_failures_from] in *.
    destruct (func st) as [[e|w] st']; simpl in *; congruence.
  - destruct n as [|n]; [lia|]. cbn [retry_loop].
    destruct (Hfail O ltac:(lia)) as [e He]. cbn [after_failures_from] in He.
    destruct (func st) as [[e'|w] st'] eqn:Hf; simpl in He; [|discriminate].
    destruct (Z.eqb_spec a (max_retries - 1)) as [E|_]; [lia|].
    rewrite sleep_step by (apply Hacc; lia).
    rewrite after_failures_from_shift, Hf. cbn [snd].
    apply IH; try lia.
    + intros j Hj. apply Hacc. lia.
    + intros j Hj. specialize (Hfail (S j) ltac:(lia)).
      now rewrite after_failures_from_shift, Hf in Hfail.
    + now rewrite after_failures_from_shift, Hf in Hok.
Qed.

Lemma retry_loop_exhausted :
  forall n a st e,
    (0 <= a)%Z -> (a + Z.of_nat (S n) = max_retries)%Z ->
    (forall j, (a + 1 <= j < max_retries)%Z -> sleep_accepted j) ->
    (forall j, (j < n)%nat -> exists e', fst (func (after_failures_from a st j)) = inl e') ->
    fst (func (after_failures_from a st n)) = inl e ->
    retry_loop max_retries delay none func (S n) a st
    = (inl e, snd (func (after_failures_from a st n))).
Proof.
  induction n as [|n IH]; intros a st e Ha Hn Hacc Hfail Hlast.
  - cbn [retry_loop after_failures_from] in *.
    destruct (func st) as [[e'|w] st']; simpl in *; [|discriminate].
    injection Hlast as ->.
    destruct (Z.eqb_spec a (max_retries - 1)) as [_|E]; [reflexivity | lia].
  - cbn [retry_loop].
    destruct (Hfail O ltac:(lia)) as [e0 He]. cbn [after_failures_from] in He.
    destruct (func st) as [[e'|w] st'] eqn:Hf; simpl in He; [|discriminate].
    destruct (Z.eqb_spec a (max_retries - 1)) as [E|_]; [lia|].
    rewrite sleep_step by (apply Hacc; lia).
    rewrite after_failures_from_shift, Hf. cbn [snd].
    apply IH; try lia.
    + intros j Hj. apply Hacc. lia.
    + intros j Hj. specialize (Hfail (S j) ltac:(lia)).
      now rewrite after_failures_from_shift, Hf in Hfail.
    + now rewrite after_failures_from_shift, Hf in Hlast.
Qed.

(** A function that does not raise is called once, and nothing else
    happens. *)
Lemma retry_on_error_no_failure st v st' :
  (1 <= max_retries)%Z -> func st = (inr v, st') ->
  retry_on_error max_retries delay none func st = (inr v, st').
Proof.
  intros HN Hf. unfold retry_on_error.
  destruct (Z.to_nat max_retries) as [|n] eqn:E; [lia|].
  cbn [retry_loop]. now rewrite Hf.
Qed.

(** A length of at most one day is slept as it is. *)
Lemma slept_value (k : Z) x q :
  number_mul delay k = inr x -> seconds x = Some q ->
  (0 <= q)%Q -> (q <= 86400)%Q ->
  sleep_accepted k /\ slept k = q.
Proof.
  intros Hx Hs H0 H1. pose proof (time_sleep_accepts x q Hs H0 H1) as Hq.
  split; [now exists x, q|]. unfold slept. now rewrite Hx, Hq.
Qed.

End RetryFacts.

(** A callable that fails until two sleeps have been recorded. *)
Definition flaky : M Z :=
  fun st =>
    if (List.length (trace st) <? 2)%nat
    then (inl (Exn OtherError (u "busy")), st)
    else (inr 7%Z, st).

(** A callable that fails at its first call, which it records, and
    returns at any later one. *)
Definition once : M Z :=
  fun st =>
    match trace st with
    | [] => (inl (Exn OtherError (u "busy")), add_event EvClientInit st)
    | _ :: _ => (inr 7%Z, st)
    end.

(** With the base delay [-1] and two attempts allowed, the value of the
    first successful invocation is not returned: the callable is called
    once and fails, the sleep of [-1 * 1] seconds is refused, and the
    wrapper ends with the exception of [time.sleep], although a second
    call would have returned. *)
Lemma retry_on_error_policy_counterexample :
  @retry_on_error ascii_platform Z 2 (Int (-1)) 0%Z once initial_state
  = (inl (Exn ValueError (u "sleep length must be non-negative")),
     add_event EvClientInit initial_state) /\
  once (add_event EvClientInit initial_state)
  = (inr 7%Z, add_event EvClientInit initial_state).
Proof. split; reflexivity. Qed.

(** C5.  With at least one attempt allowed and a base delay whose products
    with 1, ..., [max_retries - 1] are lengths that [time.sleep] accepts:
    if the first [k] attempts raise and the next one returns [v], the
    wrapper returns [v], having slept for the products of the delay and 1,
    ..., [k] after the failures (the trace of [after_failures]); if all
    [max_retries] attempts raise, the exception of the last one is raised,
    with no sleep after it; and a product of at most one day is accepted
    and slept in full, be it that of an [int], which is exact, or the
    rounded one of a [float]. *)
Theorem retry_on_error_policy `{Platform} {A} (max_retries : Z) (delay : number)
        (none : A) (func : M A) (st : State) :
  (1 <= max_retries)%Z ->
  (forall k, (1 <= k < max_retries)%Z -> sleep_accepted delay k) ->
  (forall k v,
      (Z.of_nat k < max_retries)%Z ->
      (forall j, (j < k)%nat ->
                 exists e, fst (func (after_failures delay func st j)) = inl e) ->
      fst (func (after_failures delay func st k)) = inr v ->
      retry_on_error max_retries delay none func st
      = (inr v, snd (func (after_failures delay func st k)))) /\
  (forall e,
      (forall j, (Z.of_nat j < max_retries)%Z ->
                 exists e', fst (func (after_failures delay func st j)) = inl e') ->
      fst (func (after_failures delay func st (Z.to_nat (max_retries - 1)))) = inl e ->
      retry_on_error max_retries delay none func st
      = (inl e, snd (func (after_failures delay func st (Z.to_nat (max_retries - 1)))))) /\
  (forall k,
      trace (after_failures delay func st (S k))
      = EvSleep (slept delay (Z.of_nat k + 1))
          :: trace (snd (func (after_failures delay func st k)))) /\
  (forall k x q,
      number_mul delay k = inr x -> seconds x = Some q ->
      (0 <= q)%Q -> (q <= 86400)%Q ->
      sleep_accepted delay k /\ slept delay k = q) /\
  (forall d k,
      delay = Int d -> (0 <= d * k)%Z -> (d * k <= 86400)%Z ->
      sleep_accepted delay k /\ slept delay k = inject_Z (d * k)).
Proof.
  intros HN Hacc. split; [|split; [|split; [|split]]].
  - intros k v Hk Hfail Hok. unfold retry_on_error.
    rewrite <- !after_failures_from_0 in *.
    apply retry_loop_success; try assumption; try lia.
    intros j Hj. rewrite after_failures_from_0. now apply Hfail.
  - intros e Hfail Hlast. unfold retry_on_error.
    replace (Z.to_nat max_retries) with (S (Z.to_nat (max_retries - 1))) by lia.
    rewrite <- !after_failures_from_0 in *.
    apply retry_loop_exhausted; try assumption; try lia.
    intros j Hj. rewrite after_failures_from_0. apply Hfail. lia.
  - intros k. reflexivity.
  - intros k x q. apply slept_value.
  - intros d k -> H0 H1.
    apply (slept_value (Int d) k (Int (d * k)) (inject_Z (d * k)));
      [reflexivity | reflexivity | |].
    + change 0%Q with (inject_Z 0). now rewrite <- Zle_Qle.
    + change 86400%Q with (inject_Z 86400). now rewrite <- Zle_Qle.
Qed.

Lemma retry_on_error_policy_witness :
  @retry_on_error ascii_platform Z 3 (Int 1) 0%Z flaky initial_state
  = (inr 7%Z, mkState [EvSleep 2; EvSleep 1] [] [] 0) /\
  @retry_on_error ascii_platform Z 2 (Float HALF) 0%Z flaky initial_state
  = (inl (Exn OtherError (u "busy")), mkState [EvSleep (1 # 2)] [] [] 0).
Proof.
  assert (Hint : forall k, (1 <= k < 3)%Z -> @sleep_accepted ascii_platform (Int 1) k).
  { intros k Hk. assert (E : k = 1%Z \/ k = 2%Z) by lia.
    destruct E as [-> | ->]; do 2 eexists; split; reflexivity. }
  assert (Hhalf : forall k, (1 <= k < 2)%Z ->
                            @sleep_accepted ascii_platform (Float HALF) k).
  { intros k Hk. assert (E : k = 1%Z) by lia. subst k.
    do 2 eexists; split; reflexivity. }
  split.
  - apply (proj1 (@retry_on_error_policy ascii_platform Z 3 (Int 1) 0%Z flaky
                    initial_state ltac:(lia) Hint) 2%nat 7%Z).
    + reflexivity.
    + intros [|[|j]] Hj; [eexists; reflexivity | eexists; reflexivity | lia].
    + reflexivity.
  - apply (proj1 (proj2 (@retry_on_error_policy ascii_platform Z 2 (Float HALF) 0%Z
                           flaky initial_state ltac:(lia) Hhalf))
                 (Exn OtherError (u "busy"))).
    + intros [|[|j]] Hj; [eexists; reflexivity | eexists; reflexivity | lia].
    + reflexivity.
Defined.

(** ** The normalizer *)

Lemma get_track_info_run `{Platform} (track : pyval) (st : State) :
  get_track_info track st = (inr (get_track_info_body track), st).
Proof. unfold get_track_info. now apply retry_on_error_no_failure. Qed.

(** C9.  The function under the decorator of get_track_info returns [None]
    whenever its [try] block raises, so the wrapper never sees an
    exception: a call is exactly one evaluation of the body, it leaves the
    state (hence the trace of sleeps) unchanged, and it does not raise. *)
Theorem get_track_info_single_attempt `{Platform} (track : pyval) (st : State) :
  get_track_info track st = (inr (get_track_info_body track), st) /\
  get_track_info_body track
  = match get_track_info_try track with inr r => r | inl _ => None end /\
  trace (snd (get_track_info track st)) = trace st.
Proof.
  rewrite get_track_info_run. repeat split.
Qed.

(** The claim of C6 read on the entry as passed: none of the title and
    artist fields, in any of the three places the code looks. *)
Definition no_title (track : pyval) : Prop :=
  py_getattr track "title" = None /\
  forall inner, attr_truthy track "track" = Some inner ->
                py_getattr inner "title" = None.

Definition no_artists (track : pyval) : Prop :=
  py_getattr track "artists" = None /\
  py_getattr track "artists_name" = None /\
  forall inner, attr_truthy track "track" = Some inner ->
                py_getattr inner "artists" = None.

(** An entry with an identifier and a [fetch_track] that succeeds, and an
    entry with an identifier whose [albums] is not a sequence. *)
Definition fetchable_entry : pyval :=
  VObj [ ("id"%string, VInt 1); ("track"%string, VNone);
         ("fetch_track"%string,
          VMethod (inr (VObj [("title"%string, VStr (u "X"))]))) ].

Definition odd_albums_entry : pyval :=
  VObj [ ("id"%string, VInt 1); ("albums"%string, VInt 5) ].

(** C6, as stated, fails: an entry that has an identifier and none of the
    title and artist fields is given the title of the track its
    [fetch_track] returns, and yields [None] when reading its album
    raises. *)
Lemma get_track_info_fallback_counterexample :
  (@get_track_id ascii_platform fetchable_entry = Some (u "1") /\
   no_title fetchable_entry /\ no_artists fetchable_entry /\
   fst (@get_track_info ascii_platform fetchable_entry initial_state)
   = inr (Some (Info (u "1") (VStr (u "X")) UNKNOWN_ARTIST
                     (u "https://music.yandex.ru/track/1")))) /\
  (@get_track_id ascii_platform odd_albums_entry = Some (u "1") /\
   no_title odd_albums_entry /\ no_artists odd_albums_entry /\
   fst (@get_track_info ascii_platform odd_albums_entry initial_state) = inr None).
Proof.
  unfold no_title, no_artists.
  repeat split; try reflexivity; intros inner; discriminate.
Qed.

Section NormalizerFacts.
Context `{Platform}.

Lemma no_title_resolve track :
  no_title track -> resolve_title track = VStr UNKNOWN_TRACK.
Proof.
  intros [Ht Hin]. unfold resolve_title, getattr_default. rewrite Ht.
  cbn [py_eq_str]. rewrite str_eqb_refl.
  destruct (attr_truthy track "track") as [inner|] eqn:E; [|reflexivity].
  now rewrite (Hin inner eq_refl).
Qed.

Lemma no_artists_resolve track :
  no_artists track -> resolve_artists track = inr (VList []).
Proof.
  intros (Ha & Hn & Hin). unfold resolve_artists, attr_truthy in *.
  rewrite Ha, Hn.
  destruct (py_getattr track "track") as [inner|]; [|reflexivity].
  destruct (truthy inner); [|reflexivity].
  now rewrite (Hin inner eq_refl).
Qed.

End NormalizerFacts.

(** C6, amended.  Let the track be the one the body works with after its
    best-effort [fetch_track] step.  If the entry has a non-empty
    identifier, that track has none of the title and artist fields, and its
    album can be read without raising, then get_track_info returns the
    fallback title and the fallback artists. *)
Theorem get_track_info_fallback `{Platform} (track : pyval) (tid : str)
        (album : pyval) (st : State) :
  get_track_id track = Some tid -> tid <> [] ->
  no_title (fetch_full track) -> no_artists (fetch_full track) ->
  resolve_album_id (fetch_full track) = inr album ->
  fst (get_track_info track st)
  = inr (Some (Info tid (VStr UNKNOWN_TRACK) UNKNOWN_ARTIST (track_url album tid))).
Proof.
  intros Hid Hne Ht Ha Halb.
  rewrite get_track_info_run. cbn [fst]. f_equal.
  unfold get_track_info_body, get_track_info_try. rewrite Hid.
  destruct tid as [|c tid]; [congruence|]. cbn [nonempty negb].
  rewrite (no_title_resolve _ Ht), (no_artists_resolve _ Ha).
  cbn [rbind artists_str truthy]. now rewrite Halb.
Qed.

Lemma get_track_info_fallback_witness :
  fst (@get_track_info ascii_platform (VObj [("track_id"%string, VStr (u "12:3"))])
                       initial_state)
  = inr (Some (Info (u "12:3") (VStr UNKNOWN_TRACK) UNKNOWN_ARTIST
                    (u "https://music.yandex.ru/track/12:3"))).
Proof.
  apply (@get_track_info_fallback ascii_platform
           (VObj [("track_id"%string, VStr (u "12:3"))]) (u "12:3") VNone).
  - reflexivity.
  - discriminate.
  - split; [reflexivity | intros inner; discriminate].
  - repeat split; try reflexivity. intros inner; discriminate.
  - reflexivity.
Defined.

(** ** The map from identifiers to entries *)

Section DictFacts.
Context {V : Type}.



Lemma dict_set_In (k : str) (v : V) d k' t :
  In (k', t) (dict_set k v d) -> (k' = k /\ t = v) \/ In (k', t) d.
Proof.
  induction d as [|[k0 v0] d IH]; simpl.
  - intros [[= <- <-]|[]]. now left.
  - destruct (str_eqb k k0) eqn:E; simpl.
    + intros [[= <- <-]|Hin]; [now left | right; now right].
    + intros [Heq|Hin]; [right; now left|].
      destruct (IH Hin) as [Hk|Hd]; [now left | right; now right].
Qed.



End DictFacts.

Section BuildFacts.
Context `{Platform}.


Lemma build_tracks_dict_snoc tracks track :
  build_tracks_dict (tracks ++ [track])
  = match get_track_id track with
    | Some (c :: s) => dict_set (c :: s) track (build_tracks_dict tracks)
    | _ => build_tracks_dict tracks
    end.
Proof. unfold build_tracks_dict. now rewrite fold_left_app. Qed.



Lemma build_tracks_dict_In tracks k track :
  In (k, track) (build_tracks_dict tracks) ->
  k <> [] /\ get_track_id track = Some k /\ In track tracks.
Proof.
  induction tracks as [|t tracks IH] using rev_ind.
  - intros [].
  - rewrite build_tracks_dict_snoc. intros Hin.
    assert (Hold : In (k, track) (build_tracks_dict tracks) ->
                   k <> [] /\ get_track_id track = Some k /\
                   In track (tracks ++ [t])).
    { intros Hd. destruct (IH Hd) as (? & ? & ?). repeat split; auto.
      apply in_or_app. now left. }
    destruct (get_track_id t) as [[|c s]|] eqn:E; auto.
    apply dict_set_In in Hin as [[-> ->]|Hd]; auto.
    repeat split; [discriminate | assumption |].
    apply in_or_app. right. now left.
Qed.

End BuildFacts.


(** ** The comparison: no duplicates, sorted by title *)

Lemma str_ltb_asym (a b : str) : str_ltb a b = true -> str_ltb b a = false.
Proof.
  revert b. induction a as [|x a IH]; intros [|y b]; simpl; try congruence.
  intros Hlt. apply orb_true_iff in Hlt as [Hxy|Hxy].
  - apply N.ltb_lt in Hxy.
    destruct (N.ltb_spec y x); [lia|]. destruct (N.eqb_spec y x); [lia|].
    reflexivity.
  - apply andb_true_iff in Hxy as [Hxy Hlt]. apply N.eqb_eq in Hxy. subst y.
    rewrite N.ltb_irrefl, N.eqb_refl. simpl. now apply IH.
Qed.

Lemma str_le_trans (a b c : str) : str_le a b -> str_le b c -> str_le a c.
Proof.
  unfold str_le. revert b c.
  induction a as [|x a IH]; intros [|y b] [|z c]; simpl; try congruence.
  intros Hba Hcb.
  apply orb_false_iff in Hba as [Hyx Hba].
  apply orb_false_iff in Hcb as [Hzy Hcb].
  apply N.ltb_ge in Hyx, Hzy.
  apply orb_false_iff. split; [apply N.ltb_ge; lia|].
  destruct (N.eqb_spec z x) as [->|]; [|reflexivity]. simpl.
  assert (y = x) by lia. subst y.
  rewrite N.eqb_refl in Hba, Hcb. simpl in Hba, Hcb.
  now apply (IH b c).
Qed.

(** The order of strings by code point, as the specification has it:
    the empty string comes first, a smaller first code point decides, and
    after equal first code points the rest decides. *)
Inductive lex_le : str -> str -> Prop :=
| lex_le_nil (b : str) : lex_le [] b
| lex_le_lt (x y : char) (a b : str) : x < y -> lex_le (x :: a) (y :: b)
| lex_le_eq (x : char) (a b : str) : lex_le a b -> lex_le (x :: a) (x :: b).

Lemma str_le_lex (a b : str) : str_le a b <-> lex_le a b.
Proof.
  unfold str_le. split.
  - revert b. induction a as [|x a IH]; intros [|y b]; simpl.
    + intros _. constructor.
    + intros _. constructor.
    + discriminate.
    + intros Hlt. apply orb_false_iff in Hlt as [Hyx Hrest].
      apply N.ltb_ge in Hyx.
      destruct (N.eqb_spec y x) as [->|Hne].
      * apply lex_le_eq, IH. exact Hrest.
      * apply lex_le_lt. lia.
  - induction 1 as [b|x y a b Hxy|x a b Hab IH]; simpl.
    + now destruct b.
    + destruct (N.ltb_spec y x); [lia|]. destruct (N.eqb_spec y x); [lia|].
      reflexivity.
    + now rewrite N.ltb_irrefl, N.eqb_refl, IH.
Qed.

Section SortFacts.
Context `{Platform}.

Definition key_le (p q : str * info) : Prop := str_le (fst p) (fst q).

(** [x] comes before [y] in a list sorted ascending by lower-cased title:
    both titles are texts, and the lower-cased text of [x] is not after
    that of [y]. *)
Definition title_le (x y : info) : Prop :=
  exists s t,
    info_title x = VStr s /\ info_title y = VStr t /\ lex_le (lower s) (lower t).

(** Every title of the list is a text. *)
Definition text_titled (l : list info) : Prop :=
  forall i, In i l -> exists s, info_title i = VStr s.

Lemma insert_by_key_perm x l : Permutation (x :: l) (insert_by_key x l).
Proof.
  induction l as [|h t IH]; simpl; [reflexivity|].
  destruct (str_ltb (fst h) (fst x)); [|reflexivity].
  rewrite perm_swap. now constructor.
Qed.

Lemma insert_by_key_sorted x l :
  StronglySorted key_le l -> StronglySorted key_le (insert_by_key x l).
Proof.
  induction 1 as [|h t Ht IH Hh]; simpl.
  - constructor; constructor.
  - destruct (str_ltb (fst h) (fst x)) eqn:E.
    + constructor; [assumption|].
      apply (Permutation_Forall (insert_by_key_perm x t)).
      constructor; [|assumption]. now apply str_ltb_asym.
    + constructor; [now constructor|].
      constructor; [exact E|].
      eapply Forall_impl; [|exact Hh].
      intros q Hq. unfold key_le in *. eapply str_le_trans; [exact E | exact Hq].
Qed.

Lemma sort_keys_sorted kl : StronglySorted key_le (fold_right insert_by_key [] kl).
Proof.
  induction kl as [|p kl IH]; simpl; [constructor|].
  now apply insert_by_key_sorted.
Qed.

Lemma sort_keys_perm kl : Permutation kl (fold_right insert_by_key [] kl).
Proof.
  induction kl as [|p kl IH]; simpl; [reflexivity|].
  rewrite <- insert_by_key_perm. now constructor.
Qed.

Lemma with_keys_inv l kl :
  with_keys l = inr kl ->
  map snd kl = l /\ Forall (fun p => sort_key (snd p) = inr (fst p)) kl.
Proof.
  revert kl. induction l as [|x l IH]; intros kl; simpl.
  - intros [= <-]. split; constructor.
  - destruct (sort_key x) as [e|k] eqn:Ek; simpl; [discriminate|].
    destruct (with_keys l) as [e|kt]; simpl; [discriminate|].
    intros [= <-]. destruct (IH kt eq_refl) as [Hm Hf].
    split; simpl; [now rewrite Hm | now constructor].
Qed.

Lemma str_keys_inv kl skl :
  str_keys kl = Some skl -> kl = map (fun p => (VStr (fst p), snd p)) skl.
Proof.
  revert skl. induction kl as [|[k x] kl IH]; intros skl; simpl.
  - now intros [= <-].
  - destruct k; try discriminate.
    destruct (str_keys kl) as [r|]; [|discriminate].
    intros [= <-]. simpl. now rewrite (IH r eq_refl).
Qed.

Lemma str_keys_map skl :
  str_keys (map (fun p => (VStr (fst p), snd p)) skl) = Some skl.
Proof.
  induction skl as [|[k x] skl IH]; simpl; [reflexivity|]. now rewrite IH.
Qed.

Lemma map_snd_str_keys (skl : list (str * info)) :
  map snd (map (fun p => (VStr (fst p), snd p)) skl) = map snd skl.
Proof. induction skl as [|p skl IH]; simpl; [reflexivity|]. now rewrite IH. Qed.

(** The sort rearranges the list, whatever the keys. *)
Lemma sort_by_title_perm l l' : sort_by_title l = inr l' -> Permutation l l'.
Proof.
  unfold sort_by_title.
  destruct (with_keys l) as [e|kl] eqn:E; cbn [rbind]; [discriminate|].
  destruct (with_keys_inv _ _ E) as [Hm _].
  destruct (str_keys kl) as [skl|] eqn:Es.
  - intros [= <-]. apply str_keys_inv in Es.
    rewrite <- Hm, Es, map_snd_str_keys.
    apply Permutation_map, sort_keys_perm.
  - destruct kl as [|p [|q kl]]; try (intros [= <-]; reflexivity).
    destruct (sort_other info (p :: q :: kl)) as [e|sorted] eqn:Eo; cbn [rbind];
      [discriminate|].
    intros [= <-]. rewrite <- Hm. apply Permutation_map.
    now apply sort_other_perm.
Qed.

(** With string keys only, the sort is the insertion sort of the keyed
    list. *)
Lemma with_keys_str l :
  (forall i, In i l -> exists k, sort_key i = inr (VStr k)) ->
  exists skl,
    map snd skl = l /\
    Forall (fun p => sort_key (snd p) = inr (VStr (fst p))) skl /\
    with_keys l = inr (map (fun p => (VStr (fst p), snd p)) skl).
Proof.
  induction l as [|x l IH]; intros Hk.
  - exists []. repeat split; constructor.
  - destruct (Hk x (or_introl eq_refl)) as [k Ek].
    destruct IH as (skl & Hm & Hf & Hw); [intros i Hi; apply Hk; now right|].
    exists ((k, x) :: skl). split; [simpl; now rewrite Hm|]. split.
    + constructor; assumption.
    + cbn [with_keys]. rewrite Ek. cbn [rbind]. rewrite Hw. reflexivity.
Qed.

Lemma sort_by_title_str_keys l :
  (forall i, In i l -> exists k, sort_key i = inr (VStr k)) ->
  exists skl,
    map snd skl = l /\
    Forall (fun p => sort_key (snd p) = inr (VStr (fst p))) skl /\
    sort_by_title l = inr (map snd (fold_right insert_by_key [] skl)).
Proof.
  intros Hk. destruct (with_keys_str l Hk) as (skl & Hm & Hf & Hw).
  exists skl. split; [assumption|]. split; [assumption|].
  unfold sort_by_title. rewrite Hw. cbn [rbind]. now rewrite str_keys_map.
Qed.

Lemma text_titled_keys l :
  text_titled l -> forall i, In i l -> exists k, sort_key i = inr (VStr k).
Proof.
  intros Ht i Hi. destruct (Ht i Hi) as [s Es].
  exists (lower s). unfold sort_key. now rewrite Es.
Qed.

Lemma sorted_titles skl :
  Forall (fun p => sort_key (snd p) = inr (VStr (fst p))) skl ->
  text_titled (map snd skl) ->
  StronglySorted key_le skl -> StronglySorted title_le (map snd skl).
Proof.
  intros Hk Ht Hs. induction Hs as [|p skl Hs IH Hp]; simpl; [constructor|].
  inversion Hk as [|? ? Hkp Hkl]; subst.
  constructor.
  - apply IH; [assumption|]. intros i Hi. apply Ht. now right.
  - apply Forall_forall. intros y Hy. apply in_map_iff in Hy as [q [<- Hq]].
    destruct (Ht (snd p) (or_introl eq_refl)) as [s Es].
    destruct (Ht (snd q) (or_intror (in_map snd _ _ Hq))) as [t Et].
    exists s, t. split; [assumption|]. split; [assumption|].
    pose proof (proj1 (Forall_forall _ _) Hp q Hq) as Hpq.
    pose proof (proj1 (Forall_forall _ _) Hkl q Hq) as Hkq.
    unfold key_le in Hpq. unfold sort_key in Hkp, Hkq.
    rewrite Es in Hkp. rewrite Et in Hkq.
    injection Hkp as Hkp. injection Hkq as Hkq.
    rewrite Hkp, Hkq. now apply str_le_lex.
Qed.

(** A list of text titles is sorted, and the sort does not fail. *)
Lemma sort_by_title_text l :
  text_titled l ->
  exists l', sort_by_title l = inr l' /\ Permutation l l' /\
             StronglySorted title_le l'.
Proof.
  intros Ht.
  destruct (sort_by_title_str_keys l (text_titled_keys l Ht)) as (skl & Hm & Hf & Hs).
  eexists. split; [exact Hs|]. split.
  - rewrite <- Hm. apply Permutation_map, sort_keys_perm.
  - apply sorted_titles.
    + apply (Permutation_Forall (sort_keys_perm skl) Hf).
    + intros i Hi. apply Ht. rewrite <- Hm.
      apply (Permutation_in _ (Permutation_sym
                                  (Permutation_map snd (sort_keys_perm skl))) Hi).
    + apply sort_keys_sorted.
Qed.

Lemma sort_by_title_sorted l l' :
  sort_by_title l = inr l' -> text_titled l' -> StronglySorted title_le l'.
Proof.
  intros Hs Ht. pose proof (sort_by_title_perm _ _ Hs) as Hp.
  assert (Ht' : text_titled l).
  { intros i Hi. apply Ht. apply (Permutation_in _ Hp Hi). }
  destruct (sort_by_title_text l Ht') as (l'' & Hs' & _ & Hsorted).
  rewrite Hs in Hs'. injection Hs' as <-. exact Hsorted.
Qed.

Lemma get_track_info_body_id track i :
  get_track_info_body track = Some i -> get_track_id track = Some (info_id i).
Proof.
  unfold get_track_info_body, get_track_info_try.
  destruct (get_track_id track) as [[|c s]|]; cbn [nonempty negb]; try discriminate.
  destruct (resolve_artists _) as [e|a]; cbn [rbind]; [discriminate|].
  destruct (artists_str a) as [e|a']; cbn [rbind]; [discriminate|].
  destruct (resolve_album_id _) as [e|al]; cbn [rbind]; [discriminate|].
  now intros [= <-].
Qed.

Lemma dict_lookup_In {V} (k : str) (d : list (str * V)) v :
  dict_lookup k d = Some v -> In (k, v) d.
Proof.
  induction d as [|[k' w] d IH]; simpl; [discriminate|].
  destruct (str_eqb k k') eqn:E.
  - apply str_eqb_eq in E. intros [= ->]. left. now subst.
  - intros Hf. right. now apply IH.
Qed.

(** Every binding of the dictionary is under the identifier of its entry. *)
Definition keyed_by_id (d : list (str * pyval)) : Prop :=
  forall k track, In (k, track) d -> get_track_id track = Some k.

Lemma collect_infos_ids d ids :
  keyed_by_id d ->
  forall st l st',
    collect_infos d ids st = (inr l, st') ->
    (forall i, In i l -> In (info_id i) ids) /\
    (NoDup ids -> NoDup (map info_id l)).
Proof.
  intros Hd. induction ids as [|k ids IH]; intros st l st'.
  - intros [= <- <-]. split; [intros i [] | constructor].
  - cbn [collect_infos]. unfold bind at 1, lift at 1.
    destruct (dict_lookup k d) as [track|] eqn:Ek; [|discriminate].
    unfold bind at 1. rewrite get_track_info_run.
    unfold bind at 1.
    destruct (collect_infos d ids st) as [[e|tl] st1] eqn:Etl; [discriminate|].
    unfold ret. intros [= <- <-].
    destruct (IH _ _ _ Etl) as [Hin Hnd].
    assert (Hid : forall x, get_track_info_body track = Some x -> info_id x = k).
    { intros x Hx. apply get_track_info_body_id in Hx.
      apply dict_lookup_In, Hd in Ek. congruence. }
    destruct (get_track_info_body track) as [x|].
    + split.
      * intros i [<-|Hi]; [left; symmetry; now apply Hid | right; now apply Hin].
      * intros Hk. inversion Hk as [|? ? Hnotin Hids]; subst. simpl.
        rewrite (Hid x eq_refl). constructor; [|now apply Hnd].
        intros Hc. apply in_map_iff in Hc as [i [<- Hi]].
        apply Hnotin. now apply Hin.
    + split.
      * intros i Hi. right. now apply Hin.
      * intros Hk. inversion Hk; subst. now apply Hnd.
Qed.

Lemma dict_lookup_of_key {V} (k : str) (d : list (str * V)) :
  In k (map fst d) -> exists v, dict_lookup k d = Some v.
Proof.
  induction d as [|[k' v'] d IH]; simpl; [intros []|].
  destruct (str_eqb k k') eqn:E; [now eexists|].
  intros [Hk|Hin]; [|now apply IH].
  subst k'. now rewrite str_eqb_refl in E.
Qed.

Lemma collect_infos_run d ids st :
  (forall k, In k ids -> In k (map fst d)) ->
  exists l,
    collect_infos d ids st = (inr l, st) /\
    forall i, In i l <->
              exists k track, In k ids /\ dict_lookup k d = Some track /\
                              get_track_info_body track = Some i.
Proof.
  induction ids as [|k ids IH]; intros Hkeys.
  - exists []. split; [reflexivity|]. intros i. split; [intros [] |].
    intros (k & track & [] & _).
  - destruct IH as (tl & Htl & Hin); [intros k' Hk'; apply Hkeys; now right|].
    destruct (dict_lookup_of_key k d (Hkeys k (or_introl eq_refl))) as [track Ek].
    cbn [collect_infos]. unfold bind at 1, lift at 1. rewrite Ek.
    unfold bind at 1. rewrite get_track_info_run.
    unfold bind at 1. rewrite Htl. unfold ret.
    destruct (get_track_info_body track) as [x|] eqn:Ex.
    + exists (x :: tl). split; [reflexivity|]. intros i. split.
      * intros [<-|Hi].
        -- exists k, track. repeat split; auto. now left.
        -- apply Hin in Hi as (k' & t' & Hk' & Hl & Hb).
           exists k', t'. repeat split; auto. now right.
      * intros (k' & t' & [<-|Hk'] & Hl & Hb).
        -- left. congruence.
        -- right. apply Hin. now exists k', t'.
    + exists tl. split; [reflexivity|]. intros i. split.
      * intros Hi. apply Hin in Hi as (k' & t' & Hk' & Hl & Hb).
        exists k', t'. repeat split; auto. now right.
      * intros (k' & t' & [<-|Hk'] & Hl & Hb).
        -- congruence.
        -- apply Hin. now exists k', t'.
Qed.

Lemma common_ids_keys d1 d2 k :
  In k (set_inter_iter (map (@fst str pyval) d1) (map (@fst str pyval) d2)) ->
  In k (map fst d1).
Proof. intros Hk. now apply set_inter_iter_In in Hk. Qed.

(** The comparison collects a record for each common key, in the order of
    the set iteration, without any effect, and sorts what it collected. *)
Lemma compare_dicts_run d1 d2 st :
  exists common,
    compare_dicts d1 d2 st = (sort_by_title common, st) /\
    (forall i, In i common <->
               exists k track,
                 In k (map fst d1) /\ In k (map fst d2) /\
                 dict_lookup k d1 = Some track /\
                 get_track_info_body track = Some i) /\
    (keyed_by_id d1 -> NoDup (map info_id common)).
Proof.
  destruct (collect_infos_run d1 (set_inter_iter (map fst d1) (map fst d2)) st
              (common_ids_keys d1 d2)) as (common & Hc & Hin).
  exists common. split; [|split].
  - unfold compare_dicts, bind, lift. now rewrite Hc.
  - intros i. rewrite Hin. split.
    + intros (k & track & Hk & Hl & Hb).
      apply set_inter_iter_In in Hk as [H1 H2]. now exists k, track.
    + intros (k & track & H1 & H2 & Hl & Hb). exists k, track.
      repeat split; auto. now apply set_inter_iter_In.
  - intros Hd. destruct (collect_infos_ids _ _ Hd _ _ _ Hc) as [_ Hnd].
    apply Hnd, set_inter_iter_NoDup.
Qed.

Lemma compare_dicts_spec d1 d2 st l st' :
  keyed_by_id d1 ->
  compare_dicts d1 d2 st = (inr l, st') ->
  NoDup (map info_id l) /\ (text_titled l -> StronglySorted title_le l) /\
  (forall i, In i l -> In (info_id i) (map fst d1) /\ In (info_id i) (map fst d2)).
Proof.
  intros Hd. unfold compare_dicts, bind, lift.
  destruct (collect_infos d1 _ st) as [[e|common] st1] eqn:Ec; [discriminate|].
  destruct (sort_by_title common) as [e|sorted] eqn:Es; [discriminate|].
  intros [= <- <-].
  destruct (collect_infos_ids _ _ Hd _ _ _ Ec) as [Hin Hnd].
  pose proof (sort_by_title_perm _ _ Es) as Hp.
  split; [|split].
  - apply (Permutation_NoDup (Permutation_map info_id Hp)).
    apply Hnd, set_inter_iter_NoDup.
  - now apply (sort_by_title_sorted common).
  - intros i Hi. apply Permutation_sym in Hp.
    apply (Permutation_in _ Hp), Hin in Hi.
    now apply set_inter_iter_In in Hi.
Qed.

(** When every record of a common key has a text title, the comparison
    returns exactly these records, each identifier once, sorted. *)
Lemma compare_dicts_text d1 d2 st :
  keyed_by_id d1 ->
  (forall k track i,
      In k (map fst d1) -> In k (map fst d2) ->
      dict_lookup k d1 = Some track -> get_track_info_body track = Some i ->
      exists s, info_title i = VStr s) ->
  exists l,
    compare_dicts d1 d2 st = (inr l, st) /\
    (forall i, In i l <->
               exists k track,
                 In k (map fst d1) /\ In k (map fst d2) /\
                 dict_lookup k d1 = Some track /\
                 get_track_info_body track = Some i) /\
    NoDup (map info_id l) /\ StronglySorted title_le l.
Proof.
  intros Hd Htext.
  destruct (compare_dicts_run d1 d2 st) as (common & Hc & Hin & Hnd).
  assert (Ht : text_titled common).
  { intros i Hi. apply Hin in Hi as (k & track & H1 & H2 & Hl & Hb).
    now apply (Htext k track i). }
  destruct (sort_by_title_text common Ht) as (l & Hs & Hp & Hsorted).
  exists l. split; [now rewrite Hc, Hs|]. split; [|split].
  - intros i. rewrite <- Hin. split.
    + apply Permutation_in. now apply Permutation_sym.
    + now apply Permutation_in.
  - apply (Permutation_NoDup (Permutation_map info_id Hp)). now apply Hnd.
  - exact Hsorted.
Qed.

Lemma build_tracks_dict_keyed tracks : keyed_by_id (build_tracks_dict tracks).
Proof. intros k track Hin. now apply build_tracks_dict_In in Hin. Qed.

End SortFacts.

Section PipelineFacts.
Context `{Platform}.
Variable R : Remote.

Lemma process_playlist_inr service p st d st' :
  process_playlist R service p st = (inr d, st') ->
  exists tracks, d = build_tracks_dict tracks.
Proof.
  unfold process_playlist, bind, lift, ret.
  destruct (match p with
            | Uuid uuid => get_tracks_by_uuid R service uuid
            | UserKind user kind => get_tracks R user kind
            end st) as [[e|tracks] st1]; [discriminate|].
  destruct (py_iter tracks) as [e|l]; [discriminate|].
  intros [= <- <-]. now exists l.
Qed.

Lemma as_completed_results_inr {A} fd (t1 t2 : M A) st x y st' :
  as_completed_results fd t1 t2 st = (inr (x, y), st') ->
  (exists s s', t1 s = (inr x, s') \/ t2 s = (inr x, s')) /\
  (exists s s', t1 s = (inr y, s') \/ t2 s = (inr y, s')).
Proof.
  unfold as_completed_results. destruct fd.
  - destruct (t1 st) as [[e|a] s1] eqn:E1;
      destruct (t2 s1) as [[e'|b] s2] eqn:E2; try discriminate.
    intros [= <- <- <-]. split; [exists st, s1; now left | exists s1, s2; now right].
  - destruct (t2 st) as [[e|a] s1] eqn:E1;
      destruct (t1 s1) as [[e'|b] s2] eqn:E2; try discriminate.
    intros [= <- <- <-]. split; [exists st, s1; now right | exists s1, s2; now left].
Qed.

(** The two playlists have been fetched: the service was created, both
    URLs were parsed, and the two tasks returned the maps [d1] and [d2], in
    the order of their completion. *)
Definition fetched (first_done : bool) (url1 url2 : str) (st : State)
           (d1 d2 : list (str * pyval)) (st' : State) : Prop :=
  exists service s0 p1 s1 p2 s2,
    YandexMusicService R st = (inr service, s0) /\
    parse_playlist_url_cached url1 s0 = (inr p1, s1) /\
    parse_playlist_url_cached url2 s1 = (inr p2, s2) /\
    as_completed_results first_done
      (process_playlist R service p1) (process_playlist R service p2) s2
    = (inr (d1, d2), st').

Lemma process_playlists_try_fetched fd url1 url2 st d1 d2 st' :
  fetched fd url1 url2 st d1 d2 st' ->
  process_playlists_try R fd url1 url2 st = compare_dicts d1 d2 st'.
Proof.
  intros (service & s0 & p1 & s1 & p2 & s2 & Hs & Hp1 & Hp2 & Hres).
  unfold process_playlists_try. unfold bind at 1. rewrite Hs.
  unfold bind at 1. rewrite Hp1. unfold bind at 1. rewrite Hp2.
  unfold bind at 1. rewrite Hres. reflexivity.
Qed.

Lemma process_playlists_try_inr fd url1 url2 st l st' :
  process_playlists_try R fd url1 url2 st = (inr l, st') ->
  exists d1 d2 s3,
    fetched fd url1 url2 st d1 d2 s3 /\ compare_dicts d1 d2 s3 = (inr l, st').
Proof.
  unfold process_playlists_try. unfold bind at 1.
  destruct (YandexMusicService R st) as [[e|service] s0] eqn:Es; [discriminate|].
  unfold bind at 1.
  destruct (parse_playlist_url_cached url1 s0) as [[e|p1] s1] eqn:E1; [discriminate|].
  unfold bind at 1.
  destruct (parse_playlist_url_cached url2 s1) as [[e|p2] s2] eqn:E2; [discriminate|].
  unfold bind at 1.
  destruct (as_completed_results fd _ _ s2) as [[e|[d1 d2]] s3] eqn:Eres;
    [discriminate|].
  intros Hc. exists d1, d2, s3. split; [|exact Hc].
  now exists service, s0, p1, s1, p2, s2.
Qed.

Lemma fetched_keyed fd url1 url2 st d1 d2 st' :
  fetched fd url1 url2 st d1 d2 st' -> keyed_by_id d1.
Proof.
  intros (service & s0 & p1 & s1 & p2 & s2 & _ & _ & _ & Hres).
  apply as_completed_results_inr in Hres as [(s & s' & Hd1) _].
  destruct Hd1 as [Hd1|Hd1]; apply process_playlist_inr in Hd1 as [tracks ->];
    apply build_tracks_dict_keyed.
Qed.

Lemma process_playlists_try_spec fd url1 url2 st l st' :
  process_playlists_try R fd url1 url2 st = (inr l, st') ->
  NoDup (map info_id l) /\ (text_titled l -> StronglySorted title_le l).
Proof.
  intros Ht. apply process_playlists_try_inr in Ht as (d1 & d2 & s3 & Hf & Hc).
  destruct (compare_dicts_spec _ _ _ _ _ (fetched_keyed _ _ _ _ _ _ _ Hf) Hc)
    as (Hnd & Hs & _).
  now split.
Qed.

End PipelineFacts.

(** Titles in ASCII are lowered the same way on every platform. *)
Definition ascii_titled (i : info) : Prop :=
  exists s, info_title i = VStr s /\ forallb (fun c => c <? 128) s = true.

Lemma sort_by_title_ascii `{Platform} (l : list info) :
  Forall ascii_titled l ->
  sort_by_title l = @sort_by_title ascii_platform l.
Proof.
  intros Hl.
  assert (Hk : forall P : Platform,
             with_keys l
             = inr (map (fun i => (match info_title i with
                                   | VStr s => VStr (ascii_lower s)
                                   | v => v
                                   end, i)) l)).
  { intros P. induction Hl as [|x l (s & Hs & Ha) Hl IH]; simpl; [reflexivity|].
    rewrite IH. unfold sort_key. rewrite Hs.
    rewrite (lower_ascii s Ha). reflexivity. }
  unfold sort_by_title. rewrite (Hk H), (Hk ascii_platform). cbn [rbind].
  match goal with
  | |- context [str_keys ?kl] => destruct (str_keys kl) as [skl|] eqn:Es
  end; [reflexivity|].
  exfalso. clear Hk. induction Hl as [|x l (s & Hs & Ha) Hl IH]; [discriminate|].
  cbn [map str_keys] in Es. rewrite Hs in Es.
  match type of Es with
  | context [str_keys ?kl] => destruct (str_keys kl); [discriminate | now apply IH]
  end.
Qed.

Lemma three_enumerations {A} (a b c : A) (l : list A) :
  a <> b -> a <> c -> b <> c ->
  NoDup l -> (forall x, In x l <-> x = a \/ x = b \/ x = c) ->
  l = [a; b; c] \/ l = [a; c; b] \/ l = [b; a; c] \/
  l = [b; c; a] \/ l = [c; a; b] \/ l = [c; b; a].
Proof.
  intros Hab Hac Hbc Hnd Hin.
  assert (Hp : Permutation l [a; b; c]).
  { apply NoDup_Permutation; [assumption| |].
    - repeat constructor; simpl; intuition congruence.
    - intros x. rewrite Hin. simpl. intuition congruence. }
  apply Permutation_length in Hp.
  destruct l as [|x [|y [|z [|w l]]]]; try discriminate.
  assert (Hx := proj1 (Hin x) (or_introl eq_refl)).
  assert (Hy := proj1 (Hin y) (or_intror (or_introl eq_refl))).
  assert (Hz := proj1 (Hin z) (or_intror (or_intror (or_introl eq_refl)))).
  inversion Hnd as [|? ? Hx' Hnd']; subst.
  inversion Hnd' as [|? ? Hy' Hnd'']; subst.
  simpl in Hx', Hy'.
  destruct Hx as [-> | [-> | ->]], Hy as [-> | [-> | ->]], Hz as [-> | [-> | ->]];
    try (exfalso; tauto); tauto.
Qed.

(** The entries of the example: the identifiers "5", "9" and "2" are shared,
    with the titles "Banana", "apple" and "Cherry". *)
Definition entry (track_id title : string) : pyval :=
  VObj [ ("id"%string, VStr (u track_id)); ("title"%string, VStr (u title)) ].

Definition example_entries_a : list pyval :=
  [ entry "5" "Banana"; entry "9" "apple"; entry "2" "Cherry"; entry "7" "Zebra" ].

Definition example_entries_b : list pyval :=
  [ entry "2" "Cherry"; entry "8" "Other"; entry "9" "apple"; entry "5" "Banana" ].

Ltac example_order st :=
  unfold compare_dicts;
  match goal with
  | |- context [set_inter_iter ?k1 ?k2] =>
    let ids := fresh "ids" in
    let Hnd := fresh "Hnd" in
    let Hin := fresh "Hin" in
    set (ids := set_inter_iter k1 k2);
    assert (Hnd : NoDup ids) by apply set_inter_iter_NoDup;
    assert (Hin : forall x, In x ids <-> x = u "5" \/ x = u "9" \/ x = u "2")
      by (intros x; unfold ids; rewrite set_inter_iter_In;
          vm_compute; intuition congruence);
    clearbody ids;
    destruct (three_enumerations (u "5") (u "9") (u "2") ids
                ltac:(discriminate) ltac:(discriminate) ltac:(discriminate) Hnd Hin)
      as [-> | [-> | [-> | [-> | [-> | ->]]]]]
  end;
  unfold bind;
  match goal with
  | |- context [collect_infos ?d ?k st] =>
    let r := eval vm_compute in (collect_infos d k st) in
    change (collect_infos d k st) with r
  end;
  unfold lift;
  (rewrite sort_by_title_ascii
    by (repeat constructor; eexists; (split; [reflexivity | reflexivity])));
  eexists; (split; [vm_compute; reflexivity | reflexivity]).

Lemma example_compare `{Platform} (st : State) :
  exists l,
    compare_dicts (build_tracks_dict example_entries_a)
                  (build_tracks_dict example_entries_b) st = (inr l, st) /\
    map info_title l = [VStr (u "apple"); VStr (u "Banana"); VStr (u "Cherry")].
Proof. example_order st. Qed.

Lemma example_compare_swapped `{Platform} (st : State) :
  exists l,
    compare_dicts (build_tracks_dict example_entries_b)
                  (build_tracks_dict example_entries_a) st = (inr l, st) /\
    map info_title l = [VStr (u "apple"); VStr (u "Banana"); VStr (u "Cherry")].
Proof. example_order st. Qed.

(** Case folding, which the lower-casing of the code is not: on the code
    points below 256 it maps the capital letters to the small ones, the
    micro sign to the Greek mu, and the sharp s to "ss". *)
Definition casefold_char (c : char) : str :=
  if (65 <=? c) && (c <=? 90) then [c + 32]
  else if c =? 181 then [956]
  else if (192 <=? c) && (c <=? 222) && negb (c =? 215) then [c + 32]
  else if c =? 223 then [115; 115]
  else [c].

Definition casefold (s : str) : str := flat_map casefold_char s.

(** [x] comes before [y] in a list sorted ascending by case-folded
    title. *)
Definition casefold_title_le (x y : info) : Prop :=
  exists s t,
    info_title x = VStr s /\ info_title y = VStr t /\
    lex_le (casefold s) (casefold t).

(** Two playlists with the same two tracks, titled with a sharp s and
    "st". *)
Definition sharp_playlists : Remote :=
  {| environ_get _ := None;
     Client_init _ := inr tt;
     users_playlists _ _ _ :=
       inr (VObj [("tracks"%string, VList [entry "1" "ß"; entry "2" "st"])]);
     requests_get _ _ _ _ := inl (Exn OtherError (u "offline"));
     client_tracks _ _ := inl (Exn OtherError (u "offline")) |}.

(** The list of common tracks is sorted by lower-cased title and not by
    case-folded title: the sharp s is its own lower case and comes after
    "st", while its case folding "ss" comes before. *)
Lemma compare_common_tracks_sorted_counterexample :
  let l := common_tracks
             (fst (@process_playlists_async ascii_platform sharp_playlists true
                     (u "https://music.yandex.ru/users/first/playlists/1")
                     (u "https://music.yandex.ru/users/second/playlists/2")
                     initial_state)) in
  map info_title l = [VStr (u "st"); VStr (u "ß")] /\
  casefold (u "ß") = u "ss" /\
  ~ StronglySorted casefold_title_le l.
Proof.
  intros l.
  assert (Hl : map info_title l = [VStr (u "st"); VStr (u "ß")])
    by (vm_compute; reflexivity).
  split; [exact Hl|]. split; [reflexivity|].
  clearbody l. destruct l as [|x [|y [|z l]]]; try discriminate.
  injection Hl as Hx Hy. intros Hs.
  inversion Hs as [|? ? _ Hall]; subst.
  inversion Hall as [|? ? (s & t & Es & Et & Hle) _]; subst.
  rewrite Hx in Es. rewrite Hy in Et.
  injection Es as <-. injection Et as <-.
  apply str_le_lex in Hle. vm_compute in Hle. discriminate.
Qed.

(** Two playlists with the entries of the example. *)
Definition example_playlists : Remote :=
  {| environ_get _ := None;
     Client_init _ := inr tt;
     users_playlists _ _ user :=
       inr (VObj [("tracks"%string,
                   VList (if str_eqb user (u "first")
                          then example_entries_a else example_entries_b))]);
     requests_get _ _ _ _ := inl (Exn OtherError (u "offline"));
     client_tracks _ _ := inl (Exn OtherError (u "offline")) |}.

(** C2.  For every two sequences of entries, the list the comparison
    returns has no identifier twice, holds identifiers of both maps only,
    and is sorted ascending by lower-cased title when its titles are texts.
    The same holds of the list returned by process_playlists_async.  Once
    the two playlists are fetched and the records of the common
    identifiers have text titles, process_playlists_async returns, with no
    error, exactly these records, each identifier once, sorted ascending by
    lower-cased title.  And when the fetched maps are those of the entries
    of the example, in either order of completion, the titles come out as
    apple, Banana, Cherry, whatever the order in which the set of common
    identifiers is iterated. *)
Theorem compare_common_tracks_sorted `{Platform} :
  (forall entries_a entries_b st l st',
      compare_dicts (build_tracks_dict entries_a) (build_tracks_dict entries_b) st
      = (inr l, st') ->
      NoDup (map info_id l) /\
      (text_titled l -> StronglySorted title_le l) /\
      (forall i, In i l ->
                 In (info_id i) (map fst (build_tracks_dict entries_a)) /\
                 In (info_id i) (map fst (build_tracks_dict entries_b)))) /\
  (forall R first_done url1 url2 st,
      NoDup (map info_id
                 (common_tracks (fst (process_playlists_async R first_done url1 url2 st)))) /\
      (text_titled
         (common_tracks (fst (process_playlists_async R first_done url1 url2 st))) ->
       StronglySorted title_le
         (common_tracks (fst (process_playlists_async R first_done url1 url2 st))))) /\
  (forall R first_done url1 url2 st d1 d2 st',
      fetched R first_done url1 url2 st d1 d2 st' ->
      (forall k track i,
          In k (map fst d1) -> In k (map fst d2) ->
          dict_lookup k d1 = Some track -> get_track_info_body track = Some i ->
          exists s, info_title i = VStr s) ->
      exists l,
        process_playlists_async R first_done url1 url2 st = (Comparison l None, st') /\
        (forall i, In i l <->
                   exists k track,
                     In k (map fst d1) /\ In k (map fst d2) /\
                     dict_lookup k d1 = Some track /\
                     get_track_info_body track = Some i) /\
        NoDup (map info_id l) /\ StronglySorted title_le l) /\
  (forall R first_done url1 url2 st d1 d2 st',
      fetched R first_done url1 url2 st d1 d2 st' ->
      (d1 = build_tracks_dict example_entries_a /\
       d2 = build_tracks_dict example_entries_b) \/
      (d1 = build_tracks_dict example_entries_b /\
       d2 = build_tracks_dict example_entries_a) ->
      exists l,
        process_playlists_async R first_done url1 url2 st = (Comparison l None, st') /\
        map info_title l = [VStr (u "apple"); VStr (u "Banana"); VStr (u "Cherry")]).
Proof.
  split; [|split; [|split]].
  - intros entries_a entries_b st l st' Hc.
    apply (compare_dicts_spec _ _ _ _ _ (build_tracks_dict_keyed entries_a) Hc).
  - intros R first_done url1 url2 st. unfold process_playlists_async.
    destruct (process_playlists_try R first_done url1 url2 st) as [[e|l] st'] eqn:E.
    + split; constructor.
    + exact (process_playlists_try_spec R _ _ _ _ _ _ E).
  - intros R first_done url1 url2 st d1 d2 st' Hf Htext.
    destruct (compare_dicts_text d1 d2 st' (fetched_keyed R _ _ _ _ _ _ _ Hf) Htext)
      as (l & Hc & Hin & Hnd & Hs).
    exists l. split; [|split; [exact Hin | split; [exact Hnd | exact Hs]]].
    unfold process_playlists_async.
    now rewrite (process_playlists_try_fetched R _ _ _ _ _ _ _ Hf), Hc.
  - intros R first_done url1 url2 st d1 d2 st' Hf Hd.
    unfold process_playlists_async.
    rewrite (process_playlists_try_fetched R _ _ _ _ _ _ _ Hf).
    destruct Hd as [[-> ->] | [-> ->]].
    + destruct (example_compare st') as (l & -> & Ht). now exists l.
    + destruct (example_compare_swapped st') as (l & -> & Ht). now exists l.
Qed.

Lemma compare_common_tracks_sorted_witness :
  exists l st',
    @process_playlists_async ascii_platform example_playlists true
       (u "https://music.yandex.ru/users/first/playlists/1")
       (u "https://music.yandex.ru/users/second/playlists/2") initial_state
    = (Comparison l None, st') /\
    map info_title l = [VStr (u "apple"); VStr (u "Banana"); VStr (u "Cherry")].
Proof.
  assert (Hf : exists st',
             @fetched ascii_platform example_playlists true
               (u "https://music.yandex.ru/users/first/playlists/1")
               (u "https://music.yandex.ru/users/second/playlists/2") initial_state
               (@build_tracks_dict ascii_platform example_entries_a)
               (@build_tracks_dict ascii_platform example_entries_b) st').
  { unfold fetched. eexists. do 6 eexists.
    split; [vm_compute; reflexivity|]. split; [vm_compute; reflexivity|].
    split; [vm_compute; reflexivity|]. vm_compute. reflexivity. }
  destruct Hf as [st' Hf].
  destruct (proj2 (proj2 (proj2 (@compare_common_tracks_sorted ascii_platform)))
              example_playlists true _ _ initial_state _ _ st' Hf
              (or_introl (conj eq_refl eq_refl)))
    as (l & Hl & Ht).
  now exists l, st'.
Defined.

(** ** Which map supplies the entry *)

(** Two playlists sharing the identifier "7", under different titles. *)
Definition two_playlists : Remote :=
  {| environ_get _ := None;
     Client_init _ := inr tt;
     users_playlists _ _ user :=
       inr (VObj [("tracks"%string,
                   VList [if str_eqb user (u "first")
                          then entry "7" "from the first"
                          else entry "7" "from the second"])]);
     requests_get _ _ _ _ := inl (Exn OtherError (u "offline"));
     client_tracks _ _ := inl (Exn OtherError (u "offline")) |}.

(** C8: what the code does.  When the task of the second URL completes
    first, its map is the one bound to [tracks1_dict], and the entry of a
    common identifier is taken from the second playlist. *)
Theorem process_playlists_async_entry_side :
  map info_title
      (common_tracks
         (fst (@process_playlists_async ascii_platform two_playlists true
                 (u "https://music.yandex.ru/users/first/playlists/1")
                 (u "https://music.yandex.ru/users/second/playlists/2")
                 initial_state)))
  = [VStr (u "from the first")] /\
  map info_title
      (common_tracks
         (fst (@process_playlists_async ascii_platform two_playlists false
                 (u "https://music.yandex.ru/users/first/playlists/1")
                 (u "https://music.yandex.ru/users/second/playlists/2")
                 initial_state)))
  = [VStr (u "from the second")].
Proof. split; vm_compute; reflexivity. Qed.

(** ** The UUID path without a credential *)

Definition is_http_get (ev : event) : bool :=
  match ev with
  | EvHttpGet _ _ _ => true
  | _ => false
  end.

(** No HTTP GET has been issued, and nothing is cached for the UUID path. *)
Definition offline (st : State) : Prop :=
  uuid_cache st = [] /\ forallb (fun ev => negb (is_http_get ev)) (trace st) = true.

Definition preserves {A} (P : State -> Prop) (m : M A) : Prop :=
  forall st, P st -> P (snd (m st)).

Create HintDb keep.

Lemma preserves_ret {A} P (a : A) : preserves P (ret a).
Proof. intros st Hst. exact Hst. Qed.

Lemma preserves_raise {A} P e : preserves P (@raise A e).
Proof. intros st Hst. exact Hst. Qed.

Lemma preserves_lift {A} P (r : result A) : preserves P (lift r).
Proof. intros st Hst. exact Hst. Qed.

Lemma preserves_bind {A B} P (m : M A) (k : A -> M B) :
  preserves P m -> (forall a, preserves P (k a)) -> preserves P (bind m k).
Proof.
  intros Hm Hk st Hst. unfold bind. specialize (Hm st Hst).
  destruct (m st) as [[e|a] st']; [exact Hm | now apply Hk].
Qed.

Lemma preserves_try_except {A} P (m : M A) (h : exn -> M A) :
  preserves P m -> (forall e, preserves P (h e)) -> preserves P (try_except m h).
Proof.
  intros Hm Hh st Hst. unfold try_except. specialize (Hm st Hst).
  destruct (m st) as [[e|a] st']; [now apply Hh | exact Hm].
Qed.

Lemma preserves_remote_call {A} ev (oracle : list event -> result A) :
  is_http_get ev = false -> preserves offline (remote_call ev oracle).
Proof.
  intros Hev st [Hc Ht]. split; [exact Hc|]. simpl. now rewrite Hev.
Qed.

Lemma preserves_sleep `{Platform} x : preserves offline (sleep x).
Proof.
  intros st [Hc Ht]. unfold sleep. destruct (time_sleep x); split; assumption.
Qed.

Lemma preserves_retry_loop `{Platform} {A} N d (none : A) func :
  preserves offline func ->
  forall n a, preserves offline (retry_loop N d none func n a).
Proof.
  intros Hf. induction n as [|n IH]; intros a st Hst; cbn [retry_loop].
  - exact Hst.
  - specialize (Hf st Hst). destruct (func st) as [[e|v] st']; [|exact Hf].
    destruct (a =? N - 1)%Z; [exact Hf|].
    apply preserves_bind; [apply preserves_lift | | exact Hf].
    intros x. apply preserves_bind; [apply preserves_sleep | intros _; apply IH].
Qed.

#[local] Hint Resolve preserves_ret preserves_raise preserves_lift
  preserves_sleep preserves_retry_loop : keep.

Section Offline.
Context `{Platform}.
Variable R : Remote.
Hypothesis no_token : environ_get R TOKEN_VAR = None.

Lemma get_tracks_by_uuid_body_no_token key st :
  get_tracks_by_uuid_body R key st
  = (inl (Exn ValueError (UUID_FAILED ++ TOKEN_MISSING_MSG)), st).
Proof.
  unfold get_tracks_by_uuid_body, try_except, get_tracks_by_uuid_try.
  now rewrite no_token.
Qed.

Lemma get_tracks_by_uuid_no_token self uuid st :
  uuid_cache st = [] ->
  get_tracks_by_uuid R self uuid st
  = (inl (Exn ValueError (UUID_FAILED ++ TOKEN_MISSING_MSG)), st).
Proof.
  intros Hc. unfold get_tracks_by_uuid, lru_cache. rewrite Hc. cbn [lru_find].
  now rewrite get_tracks_by_uuid_body_no_token.
Qed.

Lemma preserves_get_tracks user kind : preserves offline (get_tracks R user kind).
Proof.
  unfold get_tracks, retry_on_error. apply preserves_retry_loop.
  unfold get_tracks_body. apply preserves_try_except; [|auto with keep].
  unfold get_tracks_try.
  apply preserves_bind; [now apply preserves_remote_call|]. intros playlist.
  apply preserves_bind; [auto with keep|]. intros playlist'.
  destruct (negb (truthy playlist') || negb (py_hasattr playlist' "tracks"));
    [auto with keep|].
  apply preserves_bind; [|auto with keep].
  destruct (py_getattr playlist' "fetch_tracks"); auto with keep.
Qed.

Lemma preserves_process_playlist service p :
  preserves offline (process_playlist R service p).
Proof.
  unfold process_playlist. apply preserves_bind.
  - destruct p as [uuid|user kind]; [|apply preserves_get_tracks].
    intros st Hst. now rewrite get_tracks_by_uuid_no_token by apply Hst.
  - intros tracks. apply preserves_bind; auto with keep.
Qed.

Lemma preserves_as_completed {A} fd (t1 t2 : M A) :
  preserves offline t1 -> preserves offline t2 ->
  preserves offline (as_completed_results fd t1 t2).
Proof.
  intros H1 H2 st Hst. unfold as_completed_results.
  destruct fd.
  - specialize (H1 st Hst). destruct (t1 st) as [ra s1].
    specialize (H2 s1 H1). destruct (t2 s1) as [rb s2].
    destruct ra as [e|x]; [exact H2|]. destruct rb; exact H2.
  - specialize (H2 st Hst). destruct (t2 st) as [ra s1].
    specialize (H1 s1 H2). destruct (t1 s1) as [rb s2].
    destruct ra as [e|x]; [exact H1|]. destruct rb; exact H1.
Qed.

Lemma preserves_get_track_info track : preserves offline (get_track_info track).
Proof. intros st Hst. now rewrite get_track_info_run. Qed.

Lemma preserves_collect_infos d ids : preserves offline (collect_infos d ids).
Proof.
  induction ids as [|k ids IH]; cbn [collect_infos]; [auto with keep|].
  apply preserves_bind; [auto with keep|]. intros track.
  apply preserves_bind; [apply preserves_get_track_info|]. intros i.
  apply preserves_bind; [exact IH | auto with keep].
Qed.

Lemma preserves_parse_cached url : preserves offline (parse_playlist_url_cached url).
Proof.
  intros st [Hc Ht]. unfold parse_playlist_url_cached, lru_cache, lift.
  destruct (lru_find str_eqb url (parse_cache st)); [now split|].
  destruct (parse_playlist_url url); now split.
Qed.

Lemma preserves_process_playlists_try fd url1 url2 :
  preserves offline (process_playlists_try R fd url1 url2).
Proof.
  unfold process_playlists_try.
  apply preserves_bind.
  { unfold YandexMusicService.
    apply preserves_bind; [now apply preserves_remote_call|].
    intros _ st [Hc Ht]. now split. }
  intros service.
  apply preserves_bind; [apply preserves_parse_cached|]. intros p1.
  apply preserves_bind; [apply preserves_parse_cached|]. intros p2.
  apply preserves_bind.
  { apply preserves_as_completed; apply preserves_process_playlist. }
  intros [d1 d2]. unfold compare_dicts.
  apply preserves_bind; [apply preserves_collect_infos | auto with keep].
Qed.

Lemma preserves_index fd req : preserves offline (index R fd req).
Proof.
  unfold index.
  destruct (_ && _); [|auto with keep].
  apply preserves_bind; [auto with keep|]. intros body.
  apply preserves_bind; [auto with keep|]. intros v1.
  apply preserves_bind; [auto with keep|]. intros url1.
  apply preserves_bind; [auto with keep|]. intros v2.
  apply preserves_bind; [auto with keep|]. intros url2.
  destruct url1 as [|c1 url1]; [auto with keep|].
  destruct url2 as [|c2 url2]; [auto with keep|].
  apply preserves_bind.
  { apply preserves_try_except.
    - apply preserves_bind; [apply preserves_parse_cached|]. intros _.
      apply preserves_bind; [apply preserves_parse_cached | auto with keep].
    - intros e. destruct (is_ValueError e); auto with keep. }
  intros [resp|]; [auto with keep|].
  intros st Hst. unfold process_playlists_async.
  assert (Hp := preserves_process_playlists_try fd (c1 :: url1) (c2 :: url2) st Hst).
  destruct (process_playlists_try R fd (c1 :: url1) (c2 :: url2) st) as [[e|l] st'];
    exact Hp.
Qed.

End Offline.

(** The states the process goes through: it starts with empty caches and
    serves requests. *)
Inductive reachable `{Platform} (R : Remote) : State -> Prop :=
| reach_start : reachable R initial_state
| reach_request : forall first_done req st,
    reachable R st -> reachable R (snd (index R first_done req st)).

Lemma reachable_offline `{Platform} (R : Remote) st :
  environ_get R TOKEN_VAR = None -> reachable R st -> offline st.
Proof.
  intros Henv. induction 1 as [|fd req st Hr IH].
  - split; reflexivity.
  - now apply preserves_index.
Qed.

(** C4.  When the environment has no YANDEX_OAUTH_TOKEN, in every state the
    process can reach, get_tracks_by_uuid raises the [ValueError] carrying
    the missing-credential message and leaves the state as it was: no HTTP
    GET is recorded, neither by this call nor before. *)
Theorem get_tracks_by_uuid_missing_token `{Platform} (R : Remote) (st : State)
        (self : nat) (playlist_uuid : str) :
  environ_get R TOKEN_VAR = None -> reachable R st ->
  get_tracks_by_uuid R self playlist_uuid st
  = (inl (Exn ValueError (UUID_FAILED ++ TOKEN_MISSING_MSG)), st) /\
  forallb (fun ev => negb (is_http_get ev)) (trace st) = true.
Proof.
  intros Henv Hr. destruct (reachable_offline R st Henv Hr) as [Hc Ht].
  split; [|exact Ht]. now apply get_tracks_by_uuid_no_token.
Qed.

(** A request for two UUID links, served without a credential. *)
Definition uuid_request : request :=
  Request (u "POST") (Some (u "XMLHttpRequest"))
          (inr (VDict [(u "playlist1", VStr (u "music.yandex.ru/playlists/abc"));
                       (u "playlist2", VStr (u "music.yandex.ru/playlists/xyz"))])).

Lemma get_tracks_by_uuid_missing_token_witness :
  get_tracks_by_uuid two_playlists 0 (u "abc")
     (snd (@index ascii_platform two_playlists true uuid_request initial_state))
  = (inl (Exn ValueError (UUID_FAILED ++ TOKEN_MISSING_MSG)),
     snd (@index ascii_platform two_playlists true uuid_request initial_state)) /\
  forallb (fun ev => negb (is_http_get ev))
          (trace (snd (@index ascii_platform two_playlists true uuid_request
                         initial_state))) = true.
Proof.
  apply (@get_tracks_by_uuid_missing_token ascii_platform two_playlists).
  - reflexivity.
  - apply (@reach_request ascii_platform), (@reach_start ascii_platform).
Defined.

(** ** Failures stay inside the comparison *)

(** C3.  process_playlists_async returns a record for every input: the
    list of its [try] block with no error when the block returns, and the
    empty list with the message of the exception when the block raises
    (first part).  The block raises whenever one of its stages does: the
    construction of the service, the parsing of either URL, the two
    playlist tasks (whose fetch has by then used up its retries), or the
    normalization and sort of the common tracks. *)
Theorem process_playlists_async_catches `{Platform} (R : Remote)
        (first_done : bool) (url1 url2 : str) (st : State) :
  (match process_playlists_try R first_done url1 url2 st with
   | (inl e, st') =>
     process_playlists_async R first_done url1 url2 st
     = (Comparison [] (Some (exn_msg e)), st')
   | (inr l, st') =>
     process_playlists_async R first_done url1 url2 st = (Comparison l None, st')
   end) /\
  (forall e s0,
      YandexMusicService R st = (inl e, s0) ->
      process_playlists_async R first_done url1 url2 st
      = (Comparison [] (Some (exn_msg e)), s0)) /\
  (forall service s0 e s1,
      YandexMusicService R st = (inr service, s0) ->
      parse_playlist_url_cached url1 s0 = (inl e, s1) ->
      process_playlists_async R first_done url1 url2 st
      = (Comparison [] (Some (exn_msg e)), s1)) /\
  (forall service s0 p1 s1 e s2,
      YandexMusicService R st = (inr service, s0) ->
      parse_playlist_url_cached url1 s0 = (inr p1, s1) ->
      parse_playlist_url_cached url2 s1 = (inl e, s2) ->
      process_playlists_async R first_done url1 url2 st
      = (Comparison [] (Some (exn_msg e)), s2)) /\
  (forall service s0 p1 s1 p2 s2 e s3,
      YandexMusicService R st = (inr service, s0) ->
      parse_playlist_url_cached url1 s0 = (inr p1, s1) ->
      parse_playlist_url_cached url2 s1 = (inr p2, s2) ->
      as_completed_results first_done (process_playlist R service p1)
                           (process_playlist R service p2) s2 = (inl e, s3) ->
      process_playlists_async R first_done url1 url2 st
      = (Comparison [] (Some (exn_msg e)), s3)) /\
  (forall service s0 p1 s1 p2 s2 d1 d2 s3 e s4,
      YandexMusicService R st = (inr service, s0) ->
      parse_playlist_url_cached url1 s0 = (inr p1, s1) ->
      parse_playlist_url_cached url2 s1 = (inr p2, s2) ->
      as_completed_results first_done (process_playlist R service p1)
                           (process_playlist R service p2) s2 = (inr (d1, d2), s3) ->
      compare_dicts d1 d2 s3 = (inl e, s4) ->
      process_playlists_async R first_done url1 url2 st
      = (Comparison [] (Some (exn_msg e)), s4)).
Proof.
  unfold process_playlists_async.
  split; [destruct (process_playlists_try R first_done url1 url2 st) as [[e|l] st'];
          reflexivity|].
  unfold process_playlists_try, bind.
  repeat split.
  - intros e s0 ->. reflexivity.
  - intros service s0 e s1 -> ->. reflexivity.
  - intros service s0 p1 s1 e s2 -> -> ->. reflexivity.
  - intros service s0 p1 s1 p2 s2 e s3 -> -> -> ->. reflexivity.
  - intros service s0 p1 s1 p2 s2 d1 d2 s3 e s4 -> -> -> -> ->. reflexivity.
Qed.

(** A remote side on which every playlist lookup fails. *)
Definition failing_remote : Remote :=
  {| environ_get _ := None;
     Client_init _ := inr tt;
     users_playlists _ _ _ := inl (Exn OtherError (u "boom"));
     requests_get _ _ _ _ := inl (Exn OtherError (u "boom"));
     client_tracks _ _ := inl (Exn OtherError (u "boom")) |}.

Lemma process_playlists_async_catches_witness :
  fst (@process_playlists_async ascii_platform failing_remote true
         (u "music.yandex.ru/users/ann/playlists/3")
         (u "music.yandex.ru/users/bob/playlists/4") initial_state)
  = Comparison [] (Some (GET_TRACKS_FAILED ++ u "boom")) /\
  trace (snd (@process_playlists_async ascii_platform failing_remote true
                (u "music.yandex.ru/users/ann/playlists/3")
                (u "music.yandex.ru/users/bob/playlists/4") initial_state))
  = [ EvUsersPlaylists (u "4") (u "bob"); EvSleep (1 * inject_Z 2);
      EvUsersPlaylists (u "4") (u "bob"); EvSleep (1 * inject_Z 1);
      EvUsersPlaylists (u "4") (u "bob");
      EvUsersPlaylists (u "3") (u "ann"); EvSleep (1 * inject_Z 2);
      EvUsersPlaylists (u "3") (u "ann"); EvSleep (1 * inject_Z 1);
      EvUsersPlaylists (u "3") (u "ann"); EvClientInit ].
Proof.
  pose proof
       (proj1 (proj2 (proj2 (proj2 (proj2
          (@process_playlists_async_catches ascii_platform failing_remote true
             (u "music.yandex.ru/users/ann/playlists/3")
             (u "music.yandex.ru/users/bob/playlists/4") initial_state)))))
          _ _ _ _ _ _ _ _ eq_refl eq_refl eq_refl eq_refl) as E.
  rewrite E. split; reflexivity.
Defined.

(** ** The endpoint *)

Section IndexFacts.
Context `{Platform}.
Variable R : Remote.

Lemma parse_playlist_url_error url e :
  parse_playlist_url url = inl e -> e = Exn ValueError BAD_LINK_MSG.
Proof.
  unfold parse_playlist_url.
  destruct (re_search UUID_RE url) as [[|tok [|]]|];
    destruct (re_search USER_RE url) as [[|user [|kind [|]]]|];
    congruence.
Qed.

Lemma validate_spec url1 url2 st :
  parse_cache_valid (parse_cache st) ->
  exists st',
    validate url1 url2 st
    = (inr (match parse_playlist_url url1, parse_playlist_url url2 with
            | inr _, inr _ => None
            | _, _ => Some (Jsonify (VDict [(u "error", VStr BAD_LINK_MSG)]))
            end), st').
Proof.
  intros Hv. unfold validate, try_except, bind.
  destruct (parse_playlist_url_cached_transparent url1 st Hv) as (E1 & Hv1 & _).
  destruct (parse_playlist_url_cached url1 st) as [r1 st1]. cbn [fst snd] in *.
  subst r1. destruct (parse_playlist_url url1) as [e1|p1] eqn:P1.
  - apply parse_playlist_url_error in P1. subst e1. now exists st1.
  - destruct (parse_playlist_url_cached_transparent url2 st1 Hv1) as (E2 & _).
    destruct (parse_playlist_url_cached url2 st1) as [r2 st2]. cbn [fst snd] in *.
    subst r2. destruct (parse_playlist_url url2) as [e2|p2] eqn:P2.
    + apply parse_playlist_url_error in P2. subst e2. now exists st2.
    + now exists st2.
Qed.

Lemma index_ajax fd req st body s1 s2 :
  method req = u "POST" -> x_requested_with req = Some (u "XMLHttpRequest") ->
  request_json req = inr body ->
  py_dict_get body (u "playlist1") (VStr []) = inr (VStr s1) ->
  py_dict_get body (u "playlist2") (VStr []) = inr (VStr s2) ->
  index R fd req st
  = match strip s1, strip s2 with
    | c1 :: r1, c2 :: r2 =>
      (invalid <- validate (c1 :: r1) (c2 :: r2) ;;
       match invalid with
       | Some resp => ret resp
       | None =>
         fun st =>
           let '(r, st') := process_playlists_async R fd (c1 :: r1) (c2 :: r2) st in
           (inr (Jsonify (comparison_dict r)), st')
       end) st
    | _, _ => (inr (Jsonify (VDict [(u "error", VStr EMPTY_INPUT_MSG)])), st)
    end.
Proof.
  intros Hm Hh Hj H1 H2. unfold index. rewrite Hm, Hh, !str_eqb_refl.
  cbn [andb]. unfold bind at 1, lift at 1. rewrite Hj.
  unfold bind at 1, lift at 1. rewrite H1.
  unfold bind at 1, lift at 1. cbn [py_strip].
  unfold bind at 1, lift at 1. rewrite H2.
  unfold bind at 1, lift at 1. cbn [py_strip].
  destruct (strip s1) as [|c1 r1]; [reflexivity|].
  destruct (strip s2) as [|c2 r2]; reflexivity.
Qed.

End IndexFacts.

(** C10.  For an AJAX request whose two fields are strings: when either URL
    is empty once stripped, or does not parse, the body of the response is a
    dictionary with the single key [error]; otherwise the comparison runs
    and the body has the two keys [common_tracks], a list, and [error]. *)
Theorem index_response_fields `{Platform} (R : Remote) (first_done : bool)
        (req : request) (st : State) (body : pyval) (s1 s2 : str) :
  parse_cache_valid (parse_cache st) ->
  method req = u "POST" -> x_requested_with req = Some (u "XMLHttpRequest") ->
  request_json req = inr body ->
  py_dict_get body (u "playlist1") (VStr []) = inr (VStr s1) ->
  py_dict_get body (u "playlist2") (VStr []) = inr (VStr s2) ->
  (strip s1 = [] \/ strip s2 = [] ->
   index R first_done req st
   = (inr (Jsonify (VDict [(u "error", VStr EMPTY_INPUT_MSG)])), st)) /\
  (strip s1 <> [] -> strip s2 <> [] ->
   (exists e, parse_playlist_url (strip s1) = inl e) \/
   (exists e, parse_playlist_url (strip s2) = inl e) ->
   fst (index R first_done req st)
   = inr (Jsonify (VDict [(u "error", VStr BAD_LINK_MSG)]))) /\
  (strip s1 <> [] -> strip s2 <> [] ->
   forall p1 p2,
     parse_playlist_url (strip s1) = inr p1 ->
     parse_playlist_url (strip s2) = inr p2 ->
     exists st1 tracks err,
       fst (index R first_done req st)
       = inr (Jsonify (comparison_dict
                         (fst (process_playlists_async R first_done
                                 (strip s1) (strip s2) st1)))) /\
       comparison_dict (fst (process_playlists_async R first_done
                               (strip s1) (strip s2) st1))
       = VDict [(u "common_tracks", VList tracks); (u "error", err)]).
Proof.
  intros Hv Hm Hh Hj H1 H2.
  rewrite (index_ajax R first_done req st body s1 s2 Hm Hh Hj H1 H2).
  split; [|split].
  - intros [E|E]; rewrite E; [reflexivity|]. now destruct (strip s1).
  - intros N1 N2 Hbad.
    destruct (strip s1) as [|c1 r1]; [congruence|].
    destruct (strip s2) as [|c2 r2]; [congruence|].
    destruct (validate_spec (c1 :: r1) (c2 :: r2) st Hv) as [st' E].
    unfold bind. rewrite E.
    destruct Hbad as [[e He]|[e He]]; rewrite He; [reflexivity|].
    now destruct (parse_playlist_url (c1 :: r1)).
  - intros N1 N2 p1 p2 P1 P2.
    destruct (strip s1) as [|c1 r1]; [congruence|].
    destruct (strip s2) as [|c2 r2]; [congruence|].
    destruct (validate_spec (c1 :: r1) (c2 :: r2) st Hv) as [st' E].
    unfold bind. rewrite E, P1, P2.
    exists st'.
    destruct (process_playlists_async R first_done (c1 :: r1) (c2 :: r2) st')
      as [r st''].
    eexists _, _. split; reflexivity.
Qed.

Definition ajax (playlist1 playlist2 : string) : request :=
  Request (u "POST") (Some (u "XMLHttpRequest"))
          (inr (VDict [(u "playlist1", VStr (u playlist1));
                       (u "playlist2", VStr (u playlist2))])).

Lemma index_response_fields_witness :
  @index ascii_platform two_playlists true
         (ajax "   " "music.yandex.ru/playlists/abc") initial_state
  = (inr (Jsonify (VDict [(u "error", VStr EMPTY_INPUT_MSG)])), initial_state) /\
  fst (@index ascii_platform two_playlists true
         (ajax " music.yandex.ru/album/1 " "music.yandex.ru/playlists/abc")
         initial_state)
  = inr (Jsonify (VDict [(u "error", VStr BAD_LINK_MSG)])).
Proof.
  split.
  - apply (proj1 (@index_response_fields ascii_platform two_playlists true
             (ajax "   " "music.yandex.ru/playlists/abc") initial_state
             _ (u "   ") (u "music.yandex.ru/playlists/abc")
             (Forall_nil _) eq_refl eq_refl eq_refl eq_refl eq_refl)).
    left. reflexivity.
  - apply (proj1 (proj2 (@index_response_fields ascii_platform two_playlists true
             (ajax " music.yandex.ru/album/1 " "music.yandex.ru/playlists/abc")
             initial_state
             _ (u " music.yandex.ru/album/1 ") (u "music.yandex.ru/playlists/abc")
             (Forall_nil _) eq_refl eq_refl eq_refl eq_refl eq_refl))).
    + discriminate.
    + discriminate.
    + left. eexists. reflexivity.
Defined.

(** * Further properties of the two modules *)

(** ** The parser: what a result says about the URL *)

Section ParseSound.
Context `{Platform}.

Lemma re_search_inv (r : regex) (s : str) (g : list str) :
  re_search r s = Some g ->
  exists pre suf, s = pre ++ suf /\ match_here r suf [] = Some g.
Proof.
  induction s as [|c s IH]; simpl.
  - destruct (match_here r [] []) as [g'|] eqn:E; [|discriminate].
    intros [= <-]. now exists [], [].
  - destruct (match_here r (c :: s) []) as [g'|] eqn:E.
    + intros [= <-]. now exists [], (c :: s).
    + intros Hs. destruct (IH Hs) as (pre & suf & -> & Hm).
      now exists (c :: pre), suf.
Qed.

Lemma re_search_uuid_inv url g :
  re_search UUID_RE url = Some g ->
  exists pre tok rest, g = [tok] /\ uuid_at url pre tok rest.
Proof.
  intros Hs. apply re_search_inv in Hs as (pre & suf & -> & Hm).
  apply match_uuid_here_inv in Hm as (tok & rest & -> & Hne & Htok & ->).
  exists pre, tok, rest. now repeat split.
Qed.

Lemma re_search_user_inv url g :
  re_search USER_RE url = Some g ->
  exists pre owner digits rest,
    g = [owner; digits] /\ user_at url pre owner digits rest.
Proof.
  intros Hs. apply re_search_inv in Hs as (pre & suf & -> & Hm).
  apply match_user_here_inv in Hm
    as (owner & digits & rest & -> & Hne & Hown & Hnd & Hdig & ->).
  exists pre, owner, digits, rest. now repeat split.
Qed.

End ParseSound.

(** X1.  What parse_playlist_url returns is in the URL: a [Uuid] token is a
    non-empty run without [/] and [?] standing right after
    [music.yandex.ru/playlists/]; the [user] and [kind] of a [UserKind] stand
    in a [music.yandex.ru/users/<user>/playlists/<kind>], the user without
    [/], the kind decimal digits, and the first shape occurs nowhere; and a
    URL is rejected only when neither shape occurs anywhere in it. *)
Theorem parse_playlist_url_sound `{Platform} (url : str) :
  match parse_playlist_url url with
  | inr (Uuid tok) => exists pre rest, uuid_at url pre tok rest
  | inr (UserKind user kind) =>
    (exists pre rest, user_at url pre user kind rest) /\
    (forall pre tok rest, ~ uuid_at url pre tok rest)
  | inl e =>
    e = Exn ValueError BAD_LINK_MSG /\
    (forall pre tok rest, ~ uuid_at url pre tok rest) /\
    (forall pre owner digits rest, ~ user_at url pre owner digits rest)
  end.
Proof.
  unfold parse_playlist_url.
  destruct (re_search UUID_RE url) as [g|] eqn:Eu.
  - apply re_search_uuid_inv in Eu as (pre & tok & rest & -> & Hat).
    now exists pre, rest.
  - assert (Hno : forall pre tok rest, ~ uuid_at url pre tok rest).
    { intros pre tok rest Hat. now apply uuid_at_search in Hat. }
    destruct (re_search USER_RE url) as [g|] eqn:Ew.
    + apply re_search_user_inv in Ew as (pre & owner & digits & rest & -> & Hat).
      split; [now exists pre, rest | exact Hno].
    + repeat split; [exact Hno|].
      intros pre owner digits rest Hat. now apply user_at_search in Hat.
Qed.

(** ** The caches *)

Section LruFacts.
Context {K V : Type} (eqb : K -> K -> bool).

Lemma lru_store_length n key (v : V) c :
  (List.length (lru_store eqb n key v c) <= n)%nat.
Proof. unfold lru_store. apply firstn_le_length. Qed.

Lemma lru_find_store_same n key (v : V) c :
  eqb key key = true -> (0 < n)%nat ->
  lru_find eqb key (lru_store eqb n key v c) = Some v.
Proof.
  intros Hrefl Hn. unfold lru_store. destruct n as [|n]; [lia|].
  cbn [firstn lru_find]. now rewrite Hrefl.
Qed.

End LruFacts.

(** X2.  The cache of the parser cannot be seen in its results and stays
    within its capacity: on a cache holding parser results and at most 100
    entries, parse_playlist_url_cached returns what the parser returns,
    leaves such a cache, records no event, and a URL that parsed is found
    in the cache afterwards while a rejected one is not stored. *)
Theorem parse_playlist_url_cached_bounded `{Platform} (url : str) (st : State) :
  parse_cache_valid (parse_cache st) ->
  (List.length (parse_cache st) <= 100)%nat ->
  fst (parse_playlist_url_cached url st) = parse_playlist_url url /\
  parse_cache_valid (parse_cache (snd (parse_playlist_url_cached url st))) /\
  (List.length (parse_cache (snd (parse_playlist_url_cached url st))) <= 100)%nat /\
  trace (snd (parse_playlist_url_cached url st)) = trace st /\
  match parse_playlist_url url with
  | inr p =>
    lru_find str_eqb url (parse_cache (snd (parse_playlist_url_cached url st)))
    = Some p
  | inl _ => snd (parse_playlist_url_cached url st) = st
  end.
Proof.
  intros Hv Hlen.
  destruct (parse_playlist_url_cached_transparent url st Hv) as (Hr & Hv' & Ht & _).
  repeat split; try assumption.
  - unfold parse_playlist_url_cached, lru_cache.
    destruct (lru_find str_eqb url (parse_cache st)) as [v|]; cbn [snd].
    + apply lru_store_length.
    + unfold lift. destruct (parse_playlist_url url); cbn [snd]; [assumption|].
      apply lru_store_length.
  - revert Hr. unfold parse_playlist_url_cached, lru_cache.
    destruct (lru_find str_eqb url (parse_cache st)) as [v|] eqn:Hf; cbn [fst snd].
    + intros <-. cbn [parse_cache set_parse_cache].
      apply lru_find_store_same; [apply str_eqb_refl | lia].
    + unfold lift. destruct (parse_playlist_url url) as [e|p]; cbn [fst snd];
        [reflexivity|].
      intros _. cbn [parse_cache set_parse_cache].
      apply lru_find_store_same; [apply str_eqb_refl | lia].
Qed.

Lemma parse_playlist_url_cached_bounded_witness :
  fst (@parse_playlist_url_cached ascii_platform
         (u "music.yandex.ru/playlists/abc") initial_state)
  = @parse_playlist_url ascii_platform (u "music.yandex.ru/playlists/abc") /\
  lru_find str_eqb (u "music.yandex.ru/playlists/abc")
     (parse_cache (snd (@parse_playlist_url_cached ascii_platform
                          (u "music.yandex.ru/playlists/abc") initial_state)))
  = Some (Uuid (u "abc")).
Proof.
  destruct (@parse_playlist_url_cached_bounded ascii_platform
              (u "music.yandex.ru/playlists/abc") initial_state
              (Forall_nil _) ltac:(simpl; lia)) as (Hr & _ & _ & _ & Hf).
  split; [exact Hr | exact Hf].
Defined.

(** ** The retry wrapper at its edges *)

(** X3.  With a maximum attempt count of zero or less the loop body never
    runs: the wrapped function is not called and the wrapper returns [None],
    leaving the state untouched. *)
Theorem retry_on_error_no_attempts `{Platform} {A} (max_retries : Z)
        (delay : number) (none : A) (func : M A) (st : State) :
  (max_retries <= 0)%Z ->
  retry_on_error max_retries delay none func st = (inr none, st).
Proof.
  intros HN. unfold retry_on_error.
  replace (Z.to_nat max_retries) with O by lia. reflexivity.
Qed.

Lemma retry_on_error_no_attempts_witness :
  @retry_on_error ascii_platform Z 0 (Int 1) 0%Z flaky initial_state
  = (inr 0%Z, initial_state).
Proof. apply (@retry_on_error_no_attempts ascii_platform). lia. Defined.

(** X4.  With a negative delay and at least two attempts allowed, a first
    failure is not retried: the sleep before the second attempt raises, and
    that [ValueError] replaces the exception of the function, which has been
    called once.  The delay is negative in that its first product [x], the
    delay times one, is a negative number of seconds, of at most a day. *)
Theorem retry_on_error_negative_delay `{Platform} {A} (max_retries : Z)
        (delay x : number) (q : Q) (none : A) (func : M A) (st st' : State)
        (e : exn) :
  (2 <= max_retries)%Z ->
  number_mul delay 1 = inr x -> seconds x = Some q ->
  (-86400 <= q)%Q -> (q < 0)%Q ->
  func st = (inl e, st') ->
  retry_on_error max_retries delay none func st
  = (inl (Exn ValueError (u "sleep length must be non-negative")), st').
Proof.
  intros HN Hx Hs Hlow Hneg Hf. unfold retry_on_error.
  destruct (Z.to_nat max_retries) as [|n] eqn:En; [lia|].
  cbn [retry_loop]. rewrite Hf.
  destruct (Z.eqb_spec 0 (max_retries - 1)) as [E|_]; [lia|].
  change (0 + 1)%Z with 1%Z.
  apply (sleep_refused delay 1 _ x); [exact Hx|].
  now apply (time_sleep_negative x q).
Qed.

Lemma retry_on_error_negative_delay_witness :
  @retry_on_error ascii_platform Z 3 (Int (-1)) 0%Z flaky initial_state
  = (inl (Exn ValueError (u "sleep length must be non-negative")), initial_state).
Proof.
  apply (@retry_on_error_negative_delay ascii_platform Z 3 (Int (-1)) (Int (-1))
           (-1) 0%Z flaky initial_state initial_state (Exn OtherError (u "busy"))).
  - lia.
  - reflexivity.
  - reflexivity.
  - discriminate.
  - reflexivity.
  - reflexivity.
Defined.

(** ** The playlist of a user *)

(** The events of [n] lookups of a playlist, the latest first: between two
    lookups the wrapper sleeps one second, then two. *)
Fixpoint lookups (user kind : str) (n : nat) : list event :=
  match n with
  | O => []
  | S O => [EvUsersPlaylists kind user]
  | S (S k as m) =>
    EvUsersPlaylists kind user :: EvSleep (1 * inject_Z (Z.of_nat m))
      :: lookups user kind m
  end.

Section GetTracksFacts.
Variable R : Remote.

(** One run of the function under the decorator records one lookup, and
    raises nothing but a [ValueError] with the prefix of the function. *)
Lemma get_tracks_body_run user kind st :
  exists r,
    get_tracks_body R user kind st
    = (r, add_event (EvUsersPlaylists kind user) st) /\
    forall e, r = inl e ->
              exn_cls e = ValueError /\ exists m, exn_msg e = GET_TRACKS_FAILED ++ m.
Proof.
  assert (Hraise : forall (e : exn) (s : State),
             exists r : result pyval,
               (@inl exn pyval (Exn ValueError (GET_TRACKS_FAILED ++ exn_msg e)), s)
               = (r, s) /\
               forall e', r = inl e' ->
                 exn_cls e' = ValueError /\ exists m, exn_msg e' = GET_TRACKS_FAILED ++ m).
  { intros e s. eexists; split; [reflexivity|].
    intros e' [= <-]. split; [reflexivity | now eexists]. }
  assert (Hret : forall (v : pyval) (s : State),
             exists r : result pyval,
               (@inr exn pyval v, s) = (r, s) /\
               forall e', r = inl e' ->
                 exn_cls e' = ValueError /\ exists m, exn_msg e' = GET_TRACKS_FAILED ++ m).
  { intros v s. eexists; split; [reflexivity | discriminate]. }
  unfold get_tracks_body, try_except, get_tracks_try, bind, remote_call, lift, raise, ret.
  destruct (users_playlists R (trace st) kind user) as [e|playlist]; [apply Hraise|].
  match goal with
  | |- context [match ?x with inl _ => _ | inr _ => _ end] =>
    destruct x as [e|p]
  end; [apply Hraise|].
  destruct (negb (truthy p) || negb (py_hasattr p "tracks")); [apply (Hraise (Exn ValueError NO_TRACKS_MSG))|].
  destruct (py_getattr p "fetch_tracks") as [m|]; [|apply Hret].
  destruct (py_call m) as [e|x]; [apply Hraise | apply Hret].
Qed.

End GetTracksFacts.

(** Three attempts with a delay of one second, written out. *)
Lemma retry_three_unfold `{Platform} {A} (none : A) (func : M A) (st : State) :
  retry_on_error 3 (Int 1) none func st
  = match func st with
    | (inr v, s) => (inr v, s)
    | (inl _, s) =>
      match func (add_event (EvSleep (1 * inject_Z 1)) s) with
      | (inr v, s') => (inr v, s')
      | (inl _, s') => func (add_event (EvSleep (1 * inject_Z 2)) s')
      end
    end.
Proof.
  assert (H1 : time_sleep (Int 1) = inr (1 * inject_Z 1)%Q)
    by (apply time_sleep_accepts; [reflexivity | discriminate | discriminate]).
  assert (H2 : time_sleep (Int 2) = inr (1 * inject_Z 2)%Q)
    by (apply time_sleep_accepts; [reflexivity | discriminate | discriminate]).
  unfold retry_on_error. change (Z.to_nat 3) with 3%nat. cbn [retry_loop].
  destruct (func st) as [[e|v] s]; [|reflexivity].
  change ((0 =? 3 - 1)%Z) with false. cbv iota.
  unfold bind at 1, lift at 1.
  change (number_mul (Int 1) (0 + 1)) with (@inr exn number (Int 1)). cbv iota beta.
  unfold bind at 1, sleep at 1. rewrite H1.
  destruct (func (add_event (EvSleep (1 * inject_Z 1)) s)) as [[e'|v] s'];
    [|reflexivity].
  change ((0 + 1 =? 3 - 1)%Z) with false. cbv iota.
  unfold bind at 1, lift at 1.
  change (number_mul (Int 1) (0 + 1 + 1)) with (@inr exn number (Int 2)).
  cbv iota beta.
  unfold bind at 1, sleep at 1. rewrite H2.
  destruct (func (add_event (EvSleep (1 * inject_Z 2)) s')) as [[e''|v] s''];
    reflexivity.
Qed.

(** X5.  get_tracks looks the playlist up once, twice or three times and
    never more, sleeping one second after the first failure and two after
    the second; it does nothing else to the state; and when it raises, all
    three lookups were made and the exception is a [ValueError] whose
    message starts with the prefix of the function. *)
Theorem get_tracks_attempts `{Platform} (R : Remote) (user kind : str)
        (st : State) :
  exists n,
    (1 <= n <= 3)%nat /\
    trace (snd (get_tracks R user kind st)) = lookups user kind n ++ trace st /\
    parse_cache (snd (get_tracks R user kind st)) = parse_cache st /\
    uuid_cache (snd (get_tracks R user kind st)) = uuid_cache st /\
    forall e, fst (get_tracks R user kind st) = inl e ->
              n = 3%nat /\ exn_cls e = ValueError /\
              exists m, exn_msg e = GET_TRACKS_FAILED ++ m.
Proof.
  unfold get_tracks. rewrite retry_three_unfold.
  destruct (get_tracks_body_run R user kind st) as (r1 & -> & H1).
  destruct r1 as [e1|v1].
  2:{ exists 1%nat. split; [lia|]. split; [reflexivity|]. split; [reflexivity|].
      split; [reflexivity|]. discriminate. }
  destruct (get_tracks_body_run R user kind
              (add_event (EvSleep (1 * inject_Z 1))
                         (add_event (EvUsersPlaylists kind user) st)))
    as (r2 & -> & H2).
  destruct r2 as [e2|v2].
  2:{ exists 2%nat. split; [lia|]. split; [reflexivity|]. split; [reflexivity|].
      split; [reflexivity|]. discriminate. }
  destruct (get_tracks_body_run R user kind
              (add_event (EvSleep (1 * inject_Z 2))
                 (add_event (EvUsersPlaylists kind user)
                    (add_event (EvSleep (1 * inject_Z 1))
                               (add_event (EvUsersPlaylists kind user) st)))))
    as (r3 & -> & H3).
  exists 3%nat. split; [lia|]. split; [reflexivity|]. split; [reflexivity|].
  split; [reflexivity|]. cbn [fst]. intros e ->.
  destruct (H3 e eq_refl) as [Hc Hm]. now repeat split.
Qed.

(** X6.  A playlist that is missing (the lookup answers a value that is not
    a list and is falsy or has no [tracks]) is looked up three times, and the
    failure carries both the prefix of the function and the message of the
    inner check. *)
Theorem get_tracks_missing_playlist `{Platform} (R : Remote) (user kind : str)
        (answer : pyval) (st : State) :
  (forall history, users_playlists R history kind user = inr answer) ->
  match answer with VList _ => False | _ => True end ->
  truthy answer = false \/ py_hasattr answer "tracks" = false ->
  get_tracks R user kind st
  = (inl (Exn ValueError (GET_TRACKS_FAILED ++ NO_TRACKS_MSG)),
     mkState (lookups user kind 3 ++ trace st) (parse_cache st) (uuid_cache st)
             (next_service st)).
Proof.
  intros Hans Hnl Hmiss.
  assert (Hbody : forall s,
             get_tracks_body R user kind s
             = (inl (Exn ValueError (GET_TRACKS_FAILED ++ NO_TRACKS_MSG)),
                add_event (EvUsersPlaylists kind user) s)).
  { intros s.
    unfold get_tracks_body, try_except, get_tracks_try, bind, remote_call, lift, raise.
    rewrite Hans.
    assert (E' : negb (truthy answer) || negb (py_hasattr answer "tracks") = true).
    { destruct Hmiss as [-> | ->]; [reflexivity | apply orb_true_r]. }
    clear Hans Hmiss.
    destruct answer; try contradiction; cbv beta iota; now rewrite E'. }
  unfold get_tracks. rewrite retry_three_unfold, !Hbody. reflexivity.
Qed.

(** A remote side without playlists: every lookup answers [None]. *)
Definition empty_remote : Remote :=
  {| environ_get _ := None;
     Client_init _ := inr tt;
     users_playlists _ _ _ := inr VNone;
     requests_get _ _ _ _ := inl (Exn OtherError (u "offline"));
     client_tracks _ _ := inl (Exn OtherError (u "offline")) |}.

Lemma get_tracks_missing_playlist_witness :
  @get_tracks ascii_platform empty_remote (u "ann") (u "3") initial_state
  = (inl (Exn ValueError (GET_TRACKS_FAILED ++ NO_TRACKS_MSG)),
     mkState (lookups (u "ann") (u "3") 3) [] [] 0).
Proof.
  apply (@get_tracks_missing_playlist ascii_platform empty_remote (u "ann") (u "3")
           VNone initial_state).
  - reflexivity.
  - exact I.
  - left. reflexivity.
Defined.

(** ** The playlist by UUID *)

(** The request of get_tracks_by_uuid for a playlist, with its headers and
    its timeout of ten seconds. *)
Definition uuid_get (token playlist_uuid : str) : event :=
  EvHttpGet (API_URL ++ playlist_uuid) (request_headers token) 10.

Lemma uuid_key_eqb_refl key : uuid_key_eqb key key = true.
Proof.
  unfold uuid_key_eqb. now rewrite Nat.eqb_refl, str_eqb_refl.
Qed.

Lemma collect_track_ids_truthy items ids :
  collect_track_ids items = inr ids -> forallb truthy ids = true.
Proof.
  revert ids. induction items as [|item items IH]; intros ids; simpl.
  - now intros [= <-].
  - destruct (py_dict_get item (u "track") (VDict [])) as [e|track_data];
      cbn [rbind]; [discriminate|].
    destruct (py_dict_get track_data (u "id") VNone) as [e|track_id];
      cbn [rbind]; [discriminate|].
    destruct (collect_track_ids items) as [e|rest]; cbn [rbind]; [discriminate|].
    intros [= <-]. destruct (truthy track_id) eqn:Et; simpl.
    + rewrite Et. now apply IH.
    + now apply IH.
Qed.

Section UuidFacts.
Variable R : Remote.

(** What one run of the [try] block does to the state: nothing without a
    credential; otherwise one request, and after it at most one batch lookup,
    of a non-empty list of truthy identifiers. *)
Lemma get_tracks_by_uuid_try_state playlist_uuid st :
  (snd (get_tracks_by_uuid_try R playlist_uuid st) = st /\
   nonempty (environ_get R TOKEN_VAR) = false) \/
  exists token,
    environ_get R TOKEN_VAR = Some token /\ token <> [] /\
    (snd (get_tracks_by_uuid_try R playlist_uuid st)
     = add_event (uuid_get token playlist_uuid) st \/
     exists ids,
       ids <> [] /\ forallb truthy ids = true /\
       snd (get_tracks_by_uuid_try R playlist_uuid st)
       = add_event (EvClientTracks ids) (add_event (uuid_get token playlist_uuid) st)).
Proof.
  unfold get_tracks_by_uuid_try.
  destruct (environ_get R TOKEN_VAR) as [[|c t]|]; cbn [nonempty negb];
    [left; now split | | left; now split].
  right. exists (c :: t). split; [reflexivity|]. split; [discriminate|].
  unfold bind, remote_call, lift, raise, ret. fold (uuid_get (c :: t) playlist_uuid).
  destruct (requests_get R (trace st) (API_URL ++ playlist_uuid)
                         (request_headers (c :: t)) 10) as [e|resp];
    [now left|].
  destruct (status_code resp =? 200)%Z; [|now left].
  destruct (json resp) as [e|data]; [now left|].
  destruct (py_dict_get data (u "result") (VDict [])) as [e|info]; [now left|].
  destruct (py_dict_get info (u "tracks") (VList [])) as [e|tracks]; [now left|].
  destruct (py_iter tracks) as [e|items]; [now left|].
  destruct (collect_track_ids items) as [e|[|i ids]] eqn:Ec; [now left | now left |].
  right. exists (i :: ids). split; [discriminate|].
  split; [now apply collect_track_ids_truthy in Ec | reflexivity].
Qed.

Lemma get_tracks_by_uuid_try_caches playlist_uuid st :
  uuid_cache (snd (get_tracks_by_uuid_try R playlist_uuid st)) = uuid_cache st /\
  parse_cache (snd (get_tracks_by_uuid_try R playlist_uuid st)) = parse_cache st.
Proof.
  destruct (get_tracks_by_uuid_try_state playlist_uuid st)
    as [[-> _]|(token & _ & _ & [-> | (ids & _ & _ & ->)])]; now split.
Qed.

Lemma get_tracks_by_uuid_body_run key st :
  snd (get_tracks_by_uuid_body R key st) = snd (get_tracks_by_uuid_try R (snd key) st) /\
  forall e, fst (get_tracks_by_uuid_body R key st) = inl e ->
            exn_cls e = ValueError /\ exists m, exn_msg e = UUID_FAILED ++ m.
Proof.
  unfold get_tracks_by_uuid_body, try_except.
  destruct (get_tracks_by_uuid_try R (snd key) st) as [[e|v] st']; cbn [fst snd raise].
  - split; [reflexivity|]. intros e' [= <-]. split; [reflexivity | now eexists].
  - split; [reflexivity | discriminate].
Qed.

End UuidFacts.

(** X7.  With a credential and nothing cached for the playlist, a request
    that fails on the network, or is answered with a status other than 200,
    makes get_tracks_by_uuid raise a [ValueError] with the prefix of the
    function and the cause; one request was sent, to the playlist's URL with
    the OAuth header and the timeout of ten seconds; no track lookup follows
    and nothing is cached. *)
Theorem get_tracks_by_uuid_request_failure (R : Remote) (self : nat)
        (playlist_uuid token : str) (st : State) :
  environ_get R TOKEN_VAR = Some token -> token <> [] ->
  lru_find uuid_key_eqb (self, playlist_uuid) (uuid_cache st) = None ->
  (forall e,
      requests_get R (trace st) (API_URL ++ playlist_uuid) (request_headers token) 10
      = inl e ->
      get_tracks_by_uuid R self playlist_uuid st
      = (inl (Exn ValueError (UUID_FAILED ++ exn_msg e)),
         add_event (uuid_get token playlist_uuid) st)) /\
  (forall resp,
      requests_get R (trace st) (API_URL ++ playlist_uuid) (request_headers token) 10
      = inr resp ->
      status_code resp <> 200%Z ->
      get_tracks_by_uuid R self playlist_uuid st
      = (inl (Exn ValueError
                (UUID_FAILED ++ REQUEST_ERROR ++ str_of_Z (status_code resp))),
         add_event (uuid_get token playlist_uuid) st)).
Proof.
  intros Henv Hne Hmiss.
  unfold get_tracks_by_uuid, lru_cache. rewrite Hmiss.
  unfold get_tracks_by_uuid_body, try_except, get_tracks_by_uuid_try. cbn [snd].
  rewrite Henv. destruct token as [|c t]; [congruence|]. cbn [nonempty negb].
  unfold bind, remote_call, lift, raise. split.
  - intros e ->. reflexivity.
  - intros resp -> Hst.
    destruct (Z.eqb_spec (status_code resp) 200) as [E|_]; [contradiction|].
    reflexivity.
Qed.

(** A remote side with a credential whose API answers 404. *)
Definition not_found_remote : Remote :=
  {| environ_get _ := Some (u "secret");
     Client_init _ := inr tt;
     users_playlists _ _ _ := inr VNone;
     requests_get _ _ _ _ := inr (Response 404 (inr VNone));
     client_tracks _ _ := inr (VList []) |}.

Lemma get_tracks_by_uuid_request_failure_witness :
  get_tracks_by_uuid not_found_remote 0 (u "abc") initial_state
  = (inl (Exn ValueError (UUID_FAILED ++ REQUEST_ERROR ++ u "404")),
     add_event (uuid_get (u "secret") (u "abc")) initial_state).
Proof.
  apply (proj2 (get_tracks_by_uuid_request_failure not_found_remote 0 (u "abc")
                  (u "secret") initial_state eq_refl ltac:(discriminate) eq_refl)
               (Response 404 (inr VNone))).
  - reflexivity.
  - discriminate.
Defined.

(** X8.  An answer 200 whose JSON object has no [result], or whose [result]
    has no [tracks], is not an error: get_tracks_by_uuid returns the empty
    list without any track lookup, and stores it in the cache. *)
Theorem get_tracks_by_uuid_missing_keys (R : Remote) (self : nat)
        (playlist_uuid token : str) (st : State) (resp : response)
        (data : list (str * pyval)) :
  environ_get R TOKEN_VAR = Some token -> token <> [] ->
  lru_find uuid_key_eqb (self, playlist_uuid) (uuid_cache st) = None ->
  requests_get R (trace st) (API_URL ++ playlist_uuid) (request_headers token) 10
  = inr resp ->
  status_code resp = 200%Z -> json resp = inr (VDict data) ->
  dict_lookup (u "result") data = None \/
  (exists info, dict_lookup (u "result") data = Some (VDict info) /\
                dict_lookup (u "tracks") info = None) ->
  get_tracks_by_uuid R self playlist_uuid st
  = (inr (VList []),
     set_uuid_cache
       (lru_store uuid_key_eqb 50 (self, playlist_uuid) (VList []) (uuid_cache st))
       (add_event (uuid_get token playlist_uuid) st)).
Proof.
  intros Henv Hne Hmiss Hget Hst Hjson Hkeys.
  unfold get_tracks_by_uuid, lru_cache. rewrite Hmiss.
  unfold get_tracks_by_uuid_body, try_except, get_tracks_by_uuid_try. cbn [snd].
  rewrite Henv. destruct token as [|c t]; [congruence|]. cbn [nonempty negb].
  unfold bind, remote_call, lift, raise, ret. rewrite Hget, Hst, Hjson.
  cbn [Z.eqb Pos.eqb py_dict_get].
  destruct Hkeys as [-> | (info & -> & Hinfo)].
  - reflexivity.
  - cbn [py_dict_get]. rewrite Hinfo. reflexivity.
Qed.

(** A remote side with a credential whose API answers an empty object. *)
Definition blank_remote : Remote :=
  {| environ_get _ := Some (u "secret");
     Client_init _ := inr tt;
     users_playlists _ _ _ := inr VNone;
     requests_get _ _ _ _ := inr (Response 200 (inr (VDict [])));
     client_tracks _ _ := inl (Exn OtherError (u "unexpected")) |}.

Lemma get_tracks_by_uuid_missing_keys_witness :
  get_tracks_by_uuid blank_remote 0 (u "abc") initial_state
  = (inr (VList []),
     mkState [uuid_get (u "secret") (u "abc")] [] [((0%nat, u "abc"), VList [])] 0).
Proof.
  apply (get_tracks_by_uuid_missing_keys blank_remote 0 (u "abc") (u "secret")
           initial_state (Response 200 (inr (VDict []))) []);
    try reflexivity.
  - discriminate.
  - left. reflexivity.
Defined.

(** X9.  A value returned by get_tracks_by_uuid is remembered for the same
    instance and UUID: calling again returns the same value and records no
    event, so neither the API nor the track lookup is used a second time. *)
Theorem get_tracks_by_uuid_memoized (R : Remote) (self : nat) (playlist_uuid : str)
        (st st' : State) (v : pyval) :
  get_tracks_by_uuid R self playlist_uuid st = (inr v, st') ->
  fst (get_tracks_by_uuid R self playlist_uuid st') = inr v /\
  trace (snd (get_tracks_by_uuid R self playlist_uuid st')) = trace st'.
Proof.
  intros Hfirst.
  assert (Hhit : lru_find uuid_key_eqb (self, playlist_uuid) (uuid_cache st') = Some v).
  { revert Hfirst. unfold get_tracks_by_uuid, lru_cache.
    destruct (lru_find uuid_key_eqb (self, playlist_uuid) (uuid_cache st)) as [w|].
    - intros [= <- <-]. cbn [uuid_cache set_uuid_cache].
      apply lru_find_store_same; [apply uuid_key_eqb_refl | lia].
    - destruct (get_tracks_by_uuid_body R (self, playlist_uuid) st) as [[e|w] s];
        [discriminate|].
      intros [= <- <-]. cbn [uuid_cache set_uuid_cache].
      apply lru_find_store_same; [apply uuid_key_eqb_refl | lia]. }
  unfold get_tracks_by_uuid, lru_cache. rewrite Hhit. now split.
Qed.

Lemma get_tracks_by_uuid_memoized_witness :
  fst (get_tracks_by_uuid blank_remote 0 (u "abc")
         (snd (get_tracks_by_uuid blank_remote 0 (u "abc") initial_state)))
  = inr (VList []) /\
  trace (snd (get_tracks_by_uuid blank_remote 0 (u "abc")
                (snd (get_tracks_by_uuid blank_remote 0 (u "abc") initial_state))))
  = [uuid_get (u "secret") (u "abc")].
Proof.
  apply (get_tracks_by_uuid_memoized blank_remote 0 (u "abc") initial_state
           (snd (get_tracks_by_uuid blank_remote 0 (u "abc") initial_state))
           (VList [])).
  reflexivity.
Defined.

(** X10.  A failure of get_tracks_by_uuid is a [ValueError] whose message
    starts with the prefix of the function, and it is not remembered: the
    cache is as before the call, so the next call tries again. *)
Theorem get_tracks_by_uuid_failure_not_cached (R : Remote) (self : nat)
        (playlist_uuid : str) (st st' : State) (e : exn) :
  get_tracks_by_uuid R self playlist_uuid st = (inl e, st') ->
  exn_cls e = ValueError /\ (exists m, exn_msg e = UUID_FAILED ++ m) /\
  uuid_cache st' = uuid_cache st /\
  lru_find uuid_key_eqb (self, playlist_uuid) (uuid_cache st') = None.
Proof.
  unfold get_tracks_by_uuid, lru_cache.
  destruct (lru_find uuid_key_eqb (self, playlist_uuid) (uuid_cache st)) as [w|] eqn:Hf;
    [discriminate|].
  destruct (get_tracks_by_uuid_body_run R (self, playlist_uuid) st) as [Hs He].
  destruct (get_tracks_by_uuid_body R (self, playlist_uuid) st) as [[e'|w] s];
    [|discriminate].
  intros [= <- <-]. cbn [fst snd] in *.
  destruct (He e' eq_refl) as [Hc Hm].
  assert (Hcache : uuid_cache s = uuid_cache st).
  { rewrite Hs. apply (get_tracks_by_uuid_try_caches R playlist_uuid st). }
  repeat split; try assumption. now rewrite Hcache.
Qed.

Lemma get_tracks_by_uuid_failure_not_cached_witness :
  uuid_cache (snd (get_tracks_by_uuid not_found_remote 0 (u "abc") initial_state)) = [].
Proof.
  destruct (get_tracks_by_uuid_failure_not_cached not_found_remote 0 (u "abc")
              initial_state
              (snd (get_tracks_by_uuid not_found_remote 0 (u "abc") initial_state))
              (Exn ValueError (UUID_FAILED ++ REQUEST_ERROR ++ u "404")) eq_refl)
    as (_ & _ & Hc & _).
  exact Hc.
Defined.

(** X11.  One call of get_tracks_by_uuid sends at most one request and makes
    at most one track lookup, in that order; the lookup is never made with an
    empty list, nor with an identifier that is falsy; and without a usable
    credential the call records nothing. *)
Theorem get_tracks_by_uuid_events (R : Remote) (self : nat) (playlist_uuid : str)
        (st : State) :
  trace (snd (get_tracks_by_uuid R self playlist_uuid st)) = trace st \/
  exists token,
    environ_get R TOKEN_VAR = Some token /\ token <> [] /\
    (trace (snd (get_tracks_by_uuid R self playlist_uuid st))
     = uuid_get token playlist_uuid :: trace st \/
     exists ids,
       ids <> [] /\ forallb truthy ids = true /\
       trace (snd (get_tracks_by_uuid R self playlist_uuid st))
       = EvClientTracks ids :: uuid_get token playlist_uuid :: trace st).
Proof.
  unfold get_tracks_by_uuid, lru_cache.
  destruct (lru_find uuid_key_eqb (self, playlist_uuid) (uuid_cache st)) as [w|];
    [now left|].
  destruct (get_tracks_by_uuid_body_run R (self, playlist_uuid) st) as [Hs _].
  change (snd (self, playlist_uuid)) with playlist_uuid in Hs.
  destruct (get_tracks_by_uuid_body R (self, playlist_uuid) st) as [[e|v] s];
    cbn [snd trace set_uuid_cache] in *; subst s.
  all: (destruct (get_tracks_by_uuid_try_state R playlist_uuid st)
         as [[-> _]|(token & Henv & Hne & Hcase)]; [now left|];
        right; exists token; split; [assumption|]; split; [assumption|];
        destruct Hcase as [-> | (ids & Hi & Ht' & ->)]; [now left|];
        right; now exists ids).
Qed.

(** ** Identifiers and the map of a playlist *)

Lemma str_of_Z_nonempty (z : Z) : str_of_Z z <> [].
Proof.
  unfold str_of_Z, DecimalString.NilZero.string_of_int.
  destruct (Z.to_int z) as [d|d].
  - destruct d; discriminate.
  - discriminate.
Qed.

(** X12.  An identifier held as a number and the same identifier held as
    its decimal text give the same key, so an entry of one playlist with
    [id = n] and an entry of the other with [id = "n"] are the same track. *)
Theorem get_track_id_number_or_text `{Platform} (a b : pyval) (z : Z) :
  z <> 0%Z ->
  py_getattr a "id" = Some (VInt z) ->
  py_getattr b "id" = Some (VStr (str_of_Z z)) ->
  get_track_id a = Some (str_of_Z z) /\ get_track_id b = Some (str_of_Z z).
Proof.
  intros Hz Ha Hb. unfold get_track_id, attr_truthy. rewrite Ha, Hb.
  cbn [truthy]. destruct (Z.eqb_spec z 0) as [E|_]; [contradiction|].
  cbn [negb py_str].
  destruct (str_of_Z z) as [|c s] eqn:E; [now apply str_of_Z_nonempty in E|].
  now split.
Qed.

Lemma get_track_id_number_or_text_witness :
  @get_track_id ascii_platform (VObj [("id"%string, VInt 42)]) = Some (u "42") /\
  @get_track_id ascii_platform (VObj [("id"%string, VStr (u "42"))]) = Some (u "42").
Proof.
  apply (@get_track_id_number_or_text ascii_platform
           (VObj [("id"%string, VInt 42)]) (VObj [("id"%string, VStr (u "42"))]) 42).
  - discriminate.
  - reflexivity.
  - reflexivity.
Defined.

Section BuildMore.
Context `{Platform}.




End BuildMore.


(** ** The display record of a track *)

Section InfoFacts.
Context `{Platform}.

(** What a returned record was built from. *)
Lemma get_track_info_body_inv track i :
  get_track_info_body track = Some i ->
  exists artists album,
    get_track_id track = Some (info_id i) /\
    info_title i = resolve_title (fetch_full track) /\
    resolve_artists (fetch_full track) = inr artists /\
    artists_str artists = inr (info_artists i) /\
    resolve_album_id (fetch_full track) = inr album /\
    info_url i = track_url album (info_id i).
Proof.
  unfold get_track_info_body, get_track_info_try.
  destruct (get_track_id track) as [[|c s]|]; cbn [nonempty negb]; try discriminate.
  destruct (resolve_artists _) as [e|a] eqn:Ea; cbn [rbind]; [discriminate|].
  destruct (artists_str a) as [e|a'] eqn:Es; cbn [rbind]; [discriminate|].
  destruct (resolve_album_id _) as [e|al] eqn:El; cbn [rbind]; [discriminate|].
  intros [= <-]. exists a, al. cbn [info_id info_title info_artists info_url].
  repeat split; assumption.
Qed.

(** The names joined by a separator. *)
Fixpoint join_with (sep : str) (names : list str) : str :=
  match names with
  | [] => []
  | [n] => n
  | n :: rest => n ++ sep ++ join_with sep rest
  end.

Lemma join_strs_names sep k names :
  join_strs sep k (map VStr names) = inr (join_with sep names).
Proof.
  revert k. induction names as [|n names IH]; intros k; [reflexivity|].
  destruct names as [|m names]; [reflexivity|].
  change (join_strs sep k (map VStr (n :: m :: names)))
    with (match join_strs sep (k + 1) (map VStr (m :: names)) with
          | inr r => inr (n ++ sep ++ r)
          | inl e => inl e
          end).
  now rewrite IH.
Qed.

Lemma join_strs_not_str sep k l v :
  In v l -> (forall s, v <> VStr s) -> exists e, join_strs sep k l = inl e.
Proof.
  revert k. induction l as [|x l IH]; intros k Hin Hv; [destruct Hin|].
  destruct Hin as [->|Hin].
  - destruct v; try (eexists; reflexivity). now destruct (Hv s).
  - destruct x; try (eexists; reflexivity).
    destruct l as [|y l]; [destruct Hin|].
    destruct (IH (k + 1)%Z Hin Hv) as [e He].
    exists e. cbn [join_strs] in *. now rewrite He.
Qed.

Lemma artist_names_named objs names :
  Forall2 (fun o n => py_getattr o "name" = Some (VStr n)) objs names ->
  artist_names (VList objs) = inr (VList (map VStr names)).
Proof.
  intros Hn. unfold artist_names. cbn [py_iter rbind]. do 2 f_equal.
  induction Hn as [|o n objs names Ho Hn IH]; [reflexivity|].
  cbn [flat_map map]. now rewrite Ho, IH.
Qed.

Lemma artist_names_In objs o v :
  In o objs -> py_getattr o "name" = Some v ->
  exists l, artist_names (VList objs) = inr (VList l) /\ In v l.
Proof.
  intros Hin Hv. unfold artist_names. cbn [py_iter rbind].
  eexists. split; [reflexivity|]. apply in_flat_map. exists o.
  split; [assumption|]. rewrite Hv. now left.
Qed.

End InfoFacts.

(** X14.  When the track has a non-empty list of artist objects that all
    carry a string name, the artists of the record are these names in order,
    joined by a comma and a space. *)
Theorem get_track_info_artists_joined `{Platform} (track : pyval) (i : info)
        (objs : list pyval) (names : list str) :
  get_track_info_body track = Some i ->
  py_getattr (fetch_full track) "artists" = Some (VList objs) -> objs <> [] ->
  Forall2 (fun o n => py_getattr o "name" = Some (VStr n)) objs names ->
  info_artists i = join_with COMMA_SPACE names.
Proof.
  intros Hi Hattr Hne Hnames.
  apply get_track_info_body_inv in Hi as (artists & album & _ & _ & Ha & Hs & _).
  unfold resolve_artists, attr_truthy in Ha. rewrite Hattr in Ha.
  destruct objs as [|o objs]; [congruence|]. cbn [truthy] in Ha.
  rewrite (artist_names_named _ _ Hnames) in Ha. injection Ha as <-.
  inversion Hnames as [|? n ? names' Ho Hrest]; subst.
  unfold artists_str in Hs. cbn [truthy map] in Hs.
  unfold py_join in Hs. cbn [py_iter] in Hs.
  change (VStr n :: map VStr names') with (map VStr (n :: names')) in Hs.
  rewrite join_strs_names in Hs. congruence.
Qed.

(** An entry with two named artists. *)
Definition duet_entry : pyval :=
  VObj [ ("id"%string, VInt 3); ("title"%string, VStr (u "Song"));
         ("artists"%string,
          VList [ VObj [("name"%string, VStr (u "Ann"))];
                  VObj [("name"%string, VStr (u "Bob"))] ]) ].

Lemma get_track_info_artists_joined_witness :
  exists i,
    @get_track_info_body ascii_platform duet_entry = Some i /\
    info_artists i = join_with COMMA_SPACE [u "Ann"; u "Bob"].
Proof.
  eexists. split; [reflexivity|].
  apply (@get_track_info_artists_joined ascii_platform duet_entry _
           [ VObj [("name"%string, VStr (u "Ann"))];
             VObj [("name"%string, VStr (u "Bob"))] ]).
  - reflexivity.
  - reflexivity.
  - discriminate.
  - repeat constructor.
Defined.

(** X15.  One artist whose name is present but is not a string (a missing
    name read as [None]) costs the whole record: the join raises, the body
    absorbs it, and get_track_info returns [None] for the track. *)
Theorem get_track_info_artist_without_text `{Platform} (track : pyval)
        (objs : list pyval) (o v : pyval) (st : State) :
  py_getattr (fetch_full track) "artists" = Some (VList objs) ->
  In o objs -> py_getattr o "name" = Some v -> (forall s, v <> VStr s) ->
  get_track_info track st = (inr None, st).
Proof.
  intros Hattr Hin Hname Hv. rewrite get_track_info_run. f_equal. f_equal.
  unfold get_track_info_body, get_track_info_try.
  destruct (negb (nonempty (get_track_id track))); [reflexivity|].
  unfold resolve_artists, attr_truthy. rewrite Hattr.
  destruct objs as [|o' objs']; [destruct Hin|]. cbn [truthy].
  destruct (artist_names_In _ _ _ Hin Hname) as (l & -> & Hl).
  cbn [rbind]. unfold artists_str.
  destruct l as [|x l]; [destruct Hl|]. cbn [truthy].
  unfold py_join. cbn [py_iter].
  destruct (join_strs_not_str COMMA_SPACE 0 (x :: l) v Hl Hv) as [e ->].
  reflexivity.
Qed.

Lemma get_track_info_artist_without_text_witness :
  @get_track_info ascii_platform
     (VObj [ ("id"%string, VInt 3);
             ("artists"%string, VList [VObj [("name"%string, VNone)]]) ])
     initial_state
  = (inr None, initial_state).
Proof.
  apply (@get_track_info_artist_without_text ascii_platform _
           [VObj [("name"%string, VNone)]] (VObj [("name"%string, VNone)]) VNone).
  - reflexivity.
  - now left.
  - reflexivity.
  - discriminate.
Defined.

(** X16.  A non-empty [albums] list decides the link alone: the link is
    built from the [id] of its first album, and when that album has no
    usable [id] the link is the track-only one, the [album_id] of the track
    not being consulted. *)
Theorem get_track_info_albums_first `{Platform} (track : pyval) (i : info)
        (album : pyval) (others : list pyval) :
  get_track_info_body track = Some i ->
  py_getattr (fetch_full track) "albums" = Some (VList (album :: others)) ->
  info_url i = track_url (getattr_default album "id" VNone) (info_id i) /\
  (truthy (getattr_default album "id" VNone) = false ->
   info_url i = TRACK_URL ++ info_id i).
Proof.
  intros Hi Hattr.
  apply get_track_info_body_inv in Hi as (artists & al & _ & _ & _ & _ & Hal & Hu).
  unfold resolve_album_id, attr_truthy in Hal. rewrite Hattr in Hal.
  cbn [truthy first_album_id py_index0 rbind] in Hal. injection Hal as <-.
  split; [assumption|]. intros Hf. rewrite Hu. unfold track_url. now rewrite Hf.
Qed.

(** An entry whose first album has no identifier, with an [album_id]. *)
Definition shadowed_album_entry : pyval :=
  VObj [ ("id"%string, VInt 3); ("albums"%string, VList [VObj []]);
         ("album_id"%string, VInt 9) ].

Lemma get_track_info_albums_first_witness :
  exists i,
    @get_track_info_body ascii_platform shadowed_album_entry = Some i /\
    info_url i = TRACK_URL ++ info_id i.
Proof.
  eexists. split; [reflexivity|].
  apply (proj2 (@get_track_info_albums_first ascii_platform shadowed_album_entry _
                  (VObj []) [] eq_refl eq_refl)).
  reflexivity.
Defined.

(** ** The comparison, further *)

Lemma str_ltb_irrefl (a : str) : str_ltb a a = false.
Proof.
  destruct (str_ltb a a) eqn:E; [|reflexivity].
  now rewrite (str_ltb_asym a a E) in E.
Qed.

Section CompareMore.
Context `{Platform}.

(** The key of a title that is not a text and has no [lower]. *)
Lemma sort_key_no_lower i :
  (forall s, info_title i <> VStr s) ->
  py_getattr (info_title i) "lower" = None ->
  sort_key i = inl (no_attribute (info_title i) "lower").
Proof.
  intros Ht Hl. unfold sort_key.
  destruct (info_title i); try (now rewrite Hl). now destruct (Ht s).
Qed.

Lemma sort_key_error i e :
  py_getattr (info_title i) "lower" = None ->
  sort_key i = inl e -> exn_cls e = AttributeError.
Proof.
  intros Hl. unfold sort_key.
  destruct (info_title i); try discriminate; rewrite Hl; now intros [= <-].
Qed.

Lemma with_keys_fails l i e0 :
  In i l -> sort_key i = inl e0 ->
  exists e,
    with_keys l = inl e /\
    ((forall j, In j l -> py_getattr (info_title j) "lower" = None) ->
     exn_cls e = AttributeError).
Proof.
  intros Hin Hi. induction l as [|x l IH]; [destruct Hin|].
  cbn [with_keys].
  destruct (sort_key x) as [e|kx] eqn:Ex; cbn [rbind].
  - exists e. split; [reflexivity|]. intros Hall.
    apply (sort_key_error x e); [apply Hall; now left | exact Ex].
  - destruct Hin as [->|Hin]; [congruence|].
    destruct (IH Hin) as (e & -> & He). exists e. split; [reflexivity|].
    intros Hall. apply He. intros j Hj. apply Hall. now right.
Qed.

Definition has_key (k : str) (i : info) : bool :=
  match sort_key i with
  | inr (VStr k') => str_eqb k' k
  | _ => false
  end.

Lemma insert_by_key_filter k x l :
  filter (fun p => str_eqb (fst p) k) (insert_by_key x l)
  = filter (fun p => str_eqb (fst p) k) (x :: l).
Proof.
  induction l as [|h t IH]; [reflexivity|].
  cbn [insert_by_key]. destruct (str_ltb (fst h) (fst x)) eqn:E; [|reflexivity].
  cbn [filter] in *. rewrite IH.
  destruct (str_eqb (fst h) k) eqn:Eh, (str_eqb (fst x) k) eqn:Ex; try reflexivity.
  apply str_eqb_eq in Eh, Ex. rewrite Eh, Ex, str_ltb_irrefl in E. discriminate.
Qed.

Lemma sort_keys_filter k kl :
  filter (fun p => str_eqb (fst p) k) (fold_right insert_by_key [] kl)
  = filter (fun p => str_eqb (fst p) k) kl.
Proof.
  induction kl as [|p kl IH]; [reflexivity|].
  cbn [fold_right]. rewrite insert_by_key_filter. cbn [filter]. now rewrite IH.
Qed.

Lemma filter_has_key k skl :
  Forall (fun p => sort_key (snd p) = inr (VStr (fst p))) skl ->
  filter (has_key k) (map snd skl)
  = map snd (filter (fun p => str_eqb (fst p) k) skl).
Proof.
  induction 1 as [|p skl Hp Hkl IH]; [reflexivity|].
  cbn [map filter]. unfold has_key at 1. rewrite Hp, IH.
  now destruct (str_eqb (fst p) k).
Qed.

End CompareMore.

(** X17.  Two maps without a common key compare to the empty list, with no
    error and no effect. *)
Theorem compare_dicts_disjoint `{Platform} (d1 d2 : list (str * pyval)) (st : State) :
  (forall k, In k (map fst d1) -> ~ In k (map fst d2)) ->
  compare_dicts d1 d2 st = (inr [], st).
Proof.
  intros Hdis. unfold compare_dicts.
  destruct (set_inter_iter (map fst d1) (map fst d2)) as [|k ids] eqn:E;
    [reflexivity|].
  assert (Hk : In k (set_inter_iter (map fst d1) (map fst d2)))
    by (rewrite E; now left).
  apply set_inter_iter_In in Hk as [H1 H2]. now destruct (Hdis k H1).
Qed.

Lemma compare_dicts_disjoint_witness :
  @compare_dicts ascii_platform
     [(u "5", entry "5" "Banana")] [(u "9", entry "9" "apple")] initial_state
  = (inr [], initial_state).
Proof.
  apply (@compare_dicts_disjoint ascii_platform).
  intros k [<-|[]] [E|[]]. discriminate.
Defined.

(** X18.  When the comparison returns, its list holds exactly the records of
    the common keys: a record is in it if and only if it is what the body of
    get_track_info makes of the entry that the first map binds to a key of
    both maps.  A common key is missing only when that body yields [None]. *)
Theorem compare_dicts_exact `{Platform} (d1 d2 : list (str * pyval))
        (st st' : State) (l : list info) :
  compare_dicts d1 d2 st = (inr l, st') ->
  forall i,
    In i l <->
    exists k track,
      In k (map fst d1) /\ In k (map fst d2) /\
      dict_lookup k d1 = Some track /\ get_track_info_body track = Some i.
Proof.
  destruct (compare_dicts_run d1 d2 st) as (common & -> & Hin & _).
  destruct (sort_by_title common) as [e|sorted] eqn:Es; [discriminate|].
  intros [= <- <-] i. pose proof (sort_by_title_perm _ _ Es) as Hp.
  rewrite <- Hin. split.
  - apply Permutation_in. now apply Permutation_sym.
  - now apply Permutation_in.
Qed.

Lemma compare_dicts_exact_witness :
  exists l,
    @compare_dicts ascii_platform
       [(u "5", entry "5" "Banana")] [(u "5", entry "5" "Banana")] initial_state
    = (inr l, initial_state) /\
    In (Info (u "5") (VStr (u "Banana")) UNKNOWN_ARTIST
             (u "https://music.yandex.ru/track/5")) l.
Proof.
  eexists. split; [reflexivity|].
  apply (proj2 (@compare_dicts_exact ascii_platform
                  [(u "5", entry "5" "Banana")] [(u "5", entry "5" "Banana")]
                  initial_state initial_state _ eq_refl _)).
  exists (u "5"), (entry "5" "Banana").
  repeat split; try reflexivity; now left.
Defined.

(** X19.  One common track whose title is neither a text nor a value with
    an attribute [lower] (a title read as [None]) fails the whole
    comparison: computing the sort keys raises, and no list is returned.
    The exception is the [AttributeError] of such a title, provided no
    common title is an object with a [lower] of its own, whose call could
    raise first. *)
Theorem compare_dicts_title_not_text `{Platform} (d1 d2 : list (str * pyval))
        (st : State) (k : str) (track : pyval) (i : info) :
  In k (map fst d1) -> In k (map fst d2) ->
  dict_lookup k d1 = Some track -> get_track_info_body track = Some i ->
  (forall s, info_title i <> VStr s) ->
  py_getattr (info_title i) "lower" = None ->
  exists e,
    compare_dicts d1 d2 st = (inl e, st) /\
    ((forall k' track' j,
         In k' (map fst d1) -> In k' (map fst d2) ->
         dict_lookup k' d1 = Some track' -> get_track_info_body track' = Some j ->
         py_getattr (info_title j) "lower" = None) ->
     exn_cls e = AttributeError).
Proof.
  intros H1 H2 Hl Hb Ht Hlow.
  destruct (compare_dicts_run d1 d2 st) as (common & -> & Hin & _).
  assert (Hi : In i common) by (apply Hin; now exists k, track).
  destruct (with_keys_fails common i _ Hi (sort_key_no_lower i Ht Hlow))
    as (e & He & Hc).
  exists e. unfold sort_by_title. rewrite He. split; [reflexivity|].
  intros Hall. apply Hc. intros j Hj.
  apply Hin in Hj as (k' & track' & Hk1 & Hk2 & Hl' & Hb').
  now apply (Hall k' track' j).
Qed.

(** An entry whose title is [None]. *)
Definition untitled_entry : pyval :=
  VObj [ ("id"%string, VStr (u "5")); ("title"%string, VNone) ].

Lemma compare_dicts_title_not_text_witness :
  exists e,
    @compare_dicts ascii_platform
       [(u "5", untitled_entry)] [(u "5", untitled_entry)] initial_state
    = (inl e, initial_state) /\ exn_cls e = AttributeError.
Proof.
  destruct (@compare_dicts_title_not_text ascii_platform
              [(u "5", untitled_entry)] [(u "5", untitled_entry)] initial_state
              (u "5") untitled_entry
              (Info (u "5") VNone UNKNOWN_ARTIST (u "https://music.yandex.ru/track/5")))
    as (e & He & Hc).
  - now left.
  - now left.
  - reflexivity.
  - reflexivity.
  - discriminate.
  - reflexivity.
  - exists e. split; [exact He|]. apply Hc.
    intros k' track' j [<-|[]] _ Hl Hb.
    injection Hl as <-. injection Hb as <-. reflexivity.
Defined.

(** X20.  The sort is stable: when the keys are strings, as those of text
    titles are, records whose keys (the lower-cased titles) are equal keep
    the order they had before the sort. *)
Theorem sort_by_title_stable `{Platform} (l l' : list info) (k : str) :
  (forall i, In i l -> exists k', sort_key i = inr (VStr k')) ->
  sort_by_title l = inr l' ->
  filter (has_key k) l' = filter (has_key k) l.
Proof.
  intros Hk Hs.
  destruct (sort_by_title_str_keys l Hk) as (skl & Hm & Hf & Hs').
  rewrite Hs in Hs'. injection Hs' as ->. rewrite <- Hm.
  rewrite (filter_has_key k skl Hf).
  rewrite (filter_has_key k _ (Permutation_Forall (sort_keys_perm skl) Hf)).
  now rewrite sort_keys_filter.
Qed.

Lemma sort_by_title_stable_witness :
  filter (@has_key ascii_platform (u "song"))
         [ Info (u "2") (VStr (u "Alpha")) [] [];
           Info (u "1") (VStr (u "Song")) [] []; Info (u "3") (VStr (u "SONG")) [] [] ]
  = filter (@has_key ascii_platform (u "song"))
           [ Info (u "1") (VStr (u "Song")) [] []; Info (u "2") (VStr (u "Alpha")) [] [];
             Info (u "3") (VStr (u "SONG")) [] [] ].
Proof.
  apply (@sort_by_title_stable ascii_platform
           [ Info (u "1") (VStr (u "Song")) [] []; Info (u "2") (VStr (u "Alpha")) [] [];
             Info (u "3") (VStr (u "SONG")) [] [] ]).
  - intros i [<-|[<-|[<-|[]]]]; eexists; reflexivity.
  - reflexivity.
Defined.

(** ** The endpoint and the pipeline, further *)

Section IndexMore.
Context `{Platform}.
Variable R : Remote.

Lemma validate_state url1 url2 st :
  parse_cache_valid (parse_cache st) ->
  trace (snd (validate url1 url2 st)) = trace st /\
  uuid_cache (snd (validate url1 url2 st)) = uuid_cache st /\
  next_service (snd (validate url1 url2 st)) = next_service st.
Proof.
  intros Hv. unfold validate, try_except, bind.
  destruct (parse_playlist_url_cached_transparent url1 st Hv)
    as (_ & Hv1 & Ht1 & Hc1 & Hn1).
  destruct (parse_playlist_url_cached url1 st) as [[e1|p1] st1]; cbn [fst snd] in *.
  - destruct (is_ValueError e1); now repeat split.
  - destruct (parse_playlist_url_cached_transparent url2 st1 Hv1)
      as (_ & _ & Ht2 & Hc2 & Hn2).
    destruct (parse_playlist_url_cached url2 st1) as [[e2|p2] st2]; cbn [fst snd] in *.
    + destruct (is_ValueError e2); cbn [snd ret raise];
        repeat split; congruence.
    + cbn [snd ret]. repeat split; congruence.
Qed.

Lemma YandexMusicService_run st :
  Client_init R (trace st) = inr tt ->
  YandexMusicService R st
  = (inr (next_service st),
     mkState (EvClientInit :: trace st) (parse_cache st) (uuid_cache st)
             (S (next_service st))).
Proof.
  intros Hi. unfold YandexMusicService, bind, remote_call. now rewrite Hi.
Qed.

End IndexMore.

(** X21.  An AJAX request that is turned down for an empty or unparseable
    URL has touched nothing outside the parser: no event is recorded (no
    client is created, no playlist is looked up), the cache of the UUID path
    is as before and no service instance was made. *)
Theorem index_invalid_no_remote `{Platform} (R : Remote) (first_done : bool)
        (req : request) (st : State) (body : pyval) (s1 s2 : str) :
  parse_cache_valid (parse_cache st) ->
  method req = u "POST" -> x_requested_with req = Some (u "XMLHttpRequest") ->
  request_json req = inr body ->
  py_dict_get body (u "playlist1") (VStr []) = inr (VStr s1) ->
  py_dict_get body (u "playlist2") (VStr []) = inr (VStr s2) ->
  strip s1 = [] \/ strip s2 = [] \/
  (exists e, parse_playlist_url (strip s1) = inl e) \/
  (exists e, parse_playlist_url (strip s2) = inl e) ->
  trace (snd (index R first_done req st)) = trace st /\
  uuid_cache (snd (index R first_done req st)) = uuid_cache st /\
  next_service (snd (index R first_done req st)) = next_service st.
Proof.
  intros Hv Hm Hh Hj H1 H2 Hbad.
  rewrite (index_ajax R first_done req st body s1 s2 Hm Hh Hj H1 H2).
  destruct (strip s1) as [|c1 r1] eqn:E1; [now repeat split|].
  destruct (strip s2) as [|c2 r2] eqn:E2; [now repeat split|].
  destruct Hbad as [Hb|[Hb|Hb]]; try discriminate.
  destruct (validate_spec (c1 :: r1) (c2 :: r2) st Hv) as [st' E].
  assert (Hs := validate_state (c1 :: r1) (c2 :: r2) st Hv).
  unfold bind. rewrite E in *. cbn [snd] in Hs.
  assert (Hinv : match parse_playlist_url (c1 :: r1), parse_playlist_url (c2 :: r2) with
                 | inr _, inr _ => None
                 | _, _ => Some (Jsonify (VDict [(u "error", VStr BAD_LINK_MSG)]))
                 end = Some (Jsonify (VDict [(u "error", VStr BAD_LINK_MSG)]))).
  { destruct Hb as [[e He]|[e He]]; rewrite He; [reflexivity|].
    now destruct (parse_playlist_url (c1 :: r1)). }
  rewrite Hinv. exact Hs.
Qed.

Lemma index_invalid_no_remote_witness :
  trace (snd (@index ascii_platform two_playlists true
                (ajax " music.yandex.ru/album/1 " "music.yandex.ru/playlists/abc")
                initial_state)) = [].
Proof.
  apply (@index_invalid_no_remote ascii_platform two_playlists true
           (ajax " music.yandex.ru/album/1 " "music.yandex.ru/playlists/abc")
           initial_state
           _ (u " music.yandex.ru/album/1 ") (u "music.yandex.ru/playlists/abc")
           (Forall_nil _) eq_refl eq_refl eq_refl eq_refl eq_refl).
  right. right. left. eexists. reflexivity.
Defined.

(** X22.  A field that is present in the JSON object but is not a string (a
    number, [null], a list) is not turned into an error response: [strip] is
    missing on it and the [AttributeError] leaves [index], before anything
    else is done. *)
Theorem index_field_not_text `{Platform} (R : Remote) (first_done : bool)
        (req : request) (st : State) (fields : list (str * pyval)) (v : pyval) :
  method req = u "POST" -> x_requested_with req = Some (u "XMLHttpRequest") ->
  request_json req = inr (VDict fields) ->
  dict_lookup (u "playlist1") fields = Some v -> (forall s, v <> VStr s) ->
  index R first_done req st = (inl (no_attribute v "strip"), st).
Proof.
  intros Hm Hh Hj Hf Hv. unfold index. rewrite Hm, Hh, !str_eqb_refl.
  cbn [andb]. unfold bind at 1, lift at 1. rewrite Hj.
  unfold bind at 1, lift at 1. cbn [py_dict_get]. rewrite Hf.
  unfold bind at 1, lift at 1.
  destruct v; try reflexivity. now destruct (Hv s).
Qed.

Lemma index_field_not_text_witness :
  @index ascii_platform two_playlists true
     (Request (u "POST") (Some (u "XMLHttpRequest"))
        (inr (VDict [(u "playlist1", VInt 5); (u "playlist2", VStr (u "x"))])))
     initial_state
  = (inl (no_attribute (VInt 5) "strip"), initial_state).
Proof.
  apply (@index_field_not_text ascii_platform two_playlists true _ initial_state
           [(u "playlist1", VInt 5); (u "playlist2", VStr (u "x"))] (VInt 5));
    try reflexivity.
  discriminate.
Defined.

(** X23.  Comparing two UUID links without a credential: once the client is
    created, both fetches fail on the missing credential whichever completes
    first, the result is the empty list with that message, and the only
    event of the whole comparison is the creation of the client. *)
Theorem process_playlists_async_no_token `{Platform} (R : Remote)
        (first_done : bool) (url1 url2 uuid1 uuid2 : str) (st : State) :
  environ_get R TOKEN_VAR = None ->
  Client_init R (trace st) = inr tt ->
  parse_cache_valid (parse_cache st) -> uuid_cache st = [] ->
  parse_playlist_url url1 = inr (Uuid uuid1) ->
  parse_playlist_url url2 = inr (Uuid uuid2) ->
  fst (process_playlists_async R first_done url1 url2 st)
  = Comparison [] (Some (UUID_FAILED ++ TOKEN_MISSING_MSG)) /\
  trace (snd (process_playlists_async R first_done url1 url2 st))
  = EvClientInit :: trace st.
Proof.
  intros Henv Hinit Hv Hc P1 P2.
  assert (Htry : exists s,
             process_playlists_try R first_done url1 url2 st
             = (inl (Exn ValueError (UUID_FAILED ++ TOKEN_MISSING_MSG)), s) /\
             trace s = EvClientInit :: trace st).
  { unfold process_playlists_try.
    unfold bind at 1. rewrite (YandexMusicService_run R st Hinit).
    set (s0 := mkState _ _ _ _).
    assert (Hv0 : parse_cache_valid (parse_cache s0)) by exact Hv.
    destruct (parse_playlist_url_cached_transparent url1 s0 Hv0)
      as (E1 & Hv1 & Ht1 & Hc1 & _).
    unfold bind at 1.
    destruct (parse_playlist_url_cached url1 s0) as [r1 s1]. cbn [fst snd] in *.
    rewrite E1, P1.
    destruct (parse_playlist_url_cached_transparent url2 s1 Hv1)
      as (E2 & _ & Ht2 & Hc2 & _).
    unfold bind at 1.
    destruct (parse_playlist_url_cached url2 s1) as [r2 s2]. cbn [fst snd] in *.
    rewrite E2, P2.
    assert (Hc' : uuid_cache s2 = []) by (rewrite Hc2, Hc1; exact Hc).
    assert (Ht' : trace s2 = EvClientInit :: trace st)
      by (rewrite Ht2, Ht1; reflexivity).
    assert (Htask : forall uuid,
               process_playlist R (next_service st) (Uuid uuid) s2
               = (inl (Exn ValueError (UUID_FAILED ++ TOKEN_MISSING_MSG)), s2)).
    { intros uuid. unfold process_playlist, bind.
      now rewrite (get_tracks_by_uuid_no_token R Henv (next_service st) uuid s2 Hc'). }
    exists s2. split; [|exact Ht'].
    unfold bind at 1, as_completed_results.
    destruct first_done; rewrite !Htask; reflexivity. }
  destruct Htry as (s & Htry & Ht).
  unfold process_playlists_async. rewrite Htry. now split.
Qed.

Lemma process_playlists_async_no_token_witness :
  fst (@process_playlists_async ascii_platform two_playlists false
         (u "music.yandex.ru/playlists/abc") (u "music.yandex.ru/playlists/xyz")
         initial_state)
  = Comparison [] (Some (UUID_FAILED ++ TOKEN_MISSING_MSG)) /\
  trace (snd (@process_playlists_async ascii_platform two_playlists false
                (u "music.yandex.ru/playlists/abc") (u "music.yandex.ru/playlists/xyz")
                initial_state))
  = [EvClientInit].
Proof.
  apply (@process_playlists_async_no_token ascii_platform two_playlists false
           _ _ (u "abc") (u "xyz") initial_state);
    try reflexivity.
  constructor.
Defined.

(** ** The user path on a well-formed playlist *)

Section UserPath.
Context `{Platform}.
Variable R : Remote.



End UserPath.





